(** * VigenereDecipher: a shallow embedding of [VigenereDecipher.py]

    The Python program recovers the key of a Vigenere cipher in three
    stages (Kasiski examination, index of coincidence, chi-squared fit)
    and decrypts a prefix of the ciphertext with the recovered key.

    Conventions of the embedding:
    - a Python [str] is a [list ascii] (the program reads its input with
      [encoding='ascii']); [ord] and [chr] go through [Z];
    - a Python [int] is a [Z];
    - a Python [float] is an exact rational [Q]: the program only adds,
      subtracts, multiplies, divides and compares floats, and every
      statement below is about the exact value of those expressions;
    - a Python [dict] (also [defaultdict] and [Counter]) is an association
      list in insertion order, which is the order Python iterates it in;
    - an exception is a value [Raise e] of the type [result]. *)

From Stdlib Require Import Ascii String.
From Stdlib Require Import ZArith List ListSet Bool Lia QArith.
From Stdlib Require Import Sorting.Sorted Sorting.Permutation.
Import ListNotations.

Open Scope Z_scope.

(** ** Exceptions *)

Inductive exn : Type :=
| ZeroDivisionError
| ValueError
| IndexError.

Inductive result (A : Type) : Type :=
| Ok (a : A)
| Raise (e : exn).

Arguments Ok {A} a.
Arguments Raise {A} e.

Definition bind {A B : Type} (m : result A) (f : A -> result B) : result B :=
  match m with
  | Ok a => f a
  | Raise e => Raise e
  end.

Notation "x <- m ;; k" := (bind m (fun x => k))
  (at level 61, m at next level, right associativity).

(** A [for] loop whose body may raise: the state is threaded from left to
    right and the first exception stops the loop. *)
Fixpoint for_each {A S : Type} (body : S -> A -> result S) (xs : list A) (s : S)
  : result S :=
  match xs with
  | [] => Ok s
  | x :: rest => s' <- body s x ;; for_each body rest s'
  end.

(** [[f(x) for x in xs]] where [f] may raise. *)
Fixpoint map_result {A B : Type} (f : A -> result B) (xs : list A)
  : result (list B) :=
  match xs with
  | [] => Ok []
  | x :: rest => y <- f x ;; ys <- map_result f rest ;; Ok (y :: ys)
  end.

(** ** Strings and characters *)

Definition str : Type := list ascii.

Definition ord (c : ascii) : Z := Z.of_nat (nat_of_ascii c).
Definition chr (z : Z) : ascii := ascii_of_nat (Z.to_nat z).

Definition len {A : Type} (l : list A) : Z := Z.of_nat (length l).

(** ['A' <= c <= 'Z'] *)
Definition is_upper (c : ascii) : bool :=
  (ord "A" <=? ord c) && (ord c <=? ord "Z").

(** [str.isalpha] on one ASCII character, as [load_ciphertext] uses it. *)
Definition isalpha (c : ascii) : bool :=
  is_upper c || ((ord "a" <=? ord c) && (ord c <=? ord "z")).

(** [a % b] on Python integers: floor modulo, raising on a zero divisor. *)
Definition py_mod (a b : Z) : result Z :=
  if b =? 0 then Raise ZeroDivisionError else Ok (a mod b).

(** [l[i]] for an index [i >= 0]. *)
Definition index {A : Type} (l : list A) (i : Z) : result A :=
  match nth_error l (Z.to_nat i) with
  | Some x => Ok x
  | None => Raise IndexError
  end.

(** ** decrypt_vigenere *)

Record dec_state : Type := mk_dec { dec_result : str; dec_ki : Z }.

(** One iteration of [for c in text]. *)
Definition decrypt_step (key : str) (st : dec_state) (c : ascii)
  : result dec_state :=
  if is_upper c then
    i <- py_mod (dec_ki st) (len key) ;;
    k <- index key i ;;
    let shift := ord k - ord "A" in
    let dec := (ord c - ord "A" - shift) mod 26 + ord "A" in
    Ok (mk_dec (dec_result st ++ [chr dec]) (dec_ki st + 1))
  else
    Ok (mk_dec (dec_result st ++ [c]) (dec_ki st)).

Definition decrypt_vigenere (text key : str) : result str :=
  st <- for_each (decrypt_step key) text (mk_dec [] 0) ;;
  Ok (dec_result st).

(** *** The forward-shift encryptor the round-trip law is stated for.

    It is not part of the program: [(letter + keyLetter) mod 26] on every
    character, the key cursor advancing circularly by one per character. *)

Definition shift_forward (c k : ascii) : ascii :=
  chr ((ord c - ord "A" + (ord k - ord "A")) mod 26 + ord "A").

Definition shift_back (c k : ascii) : ascii :=
  chr ((ord c - ord "A" - (ord k - ord "A")) mod 26 + ord "A").

Fixpoint encrypt_from (key : str) (ki : nat) (text : str) : str :=
  match text with
  | [] => []
  | c :: rest =>
      shift_forward c (nth (ki mod length key) key "A"%char)
        :: encrypt_from key (S ki) rest
  end.

Definition encrypt_vigenere (text key : str) : str := encrypt_from key 0 text.

(** The number of characters of [l] that advance the key cursor. *)
Definition count_upper (l : str) : nat := length (filter is_upper l).

(** The key character under a cursor value. *)
Definition key_char (key : str) (cursor : nat) : ascii :=
  nth (cursor mod length key) key "A"%char.

(** ** Built-in containers *)

(** Keys of dictionaries have a decidable equality. *)
Class EqDec (K : Type) : Type := eq_dec : forall a b : K, {a = b} + {a <> b}.

#[export] Instance Z_EqDec : EqDec Z := Z.eq_dec.
#[export] Instance ascii_EqDec : EqDec ascii := ascii_dec.
#[export] Instance str_EqDec : EqDec str := list_eq_dec ascii_dec.

Section Dict.
Context {K V : Type} `{EqDec K}.

(** A dictionary in insertion order. *)
Definition dict : Type := list (K * V).

Definition keys (d : dict) : list K := map fst d.
Definition values (d : dict) : list V := map snd d.

Fixpoint get (d : dict) (k : K) : option V :=
  match d with
  | [] => None
  | (k', v) :: rest => if eq_dec k k' then Some v else get rest k
  end.

(** [d.get(k, dflt)] *)
Definition get_default (d : dict) (k : K) (dflt : V) : V :=
  match get d k with
  | Some v => v
  | None => dflt
  end.

(** [d[k] = v]: an existing key keeps its place, a new key goes last. *)
Fixpoint setitem (d : dict) (k : K) (v : V) : dict :=
  match d with
  | [] => [(k, v)]
  | (k', v') :: rest =>
      if eq_dec k k' then (k', v) :: rest else (k', v') :: setitem rest k v
  end.

(** [dict(pairs)] *)
Definition list_to_dict (pairs : list (K * V)) : dict :=
  fold_left (fun d '(k, v) => setitem d k v) pairs [].
End Dict.

Arguments dict : clear implicits.

(** [d[k].append(v)] on a [defaultdict(list)]. *)
Definition dict_append {K V : Type} `{EqDec K}
  (d : dict K (list V)) (k : K) (v : V) : dict K (list V) :=
  setitem d k (get_default d k [] ++ [v]).

(** [range(n)] and [range(a, b)] *)
Definition range (n : Z) : list Z := map Z.of_nat (seq 0 (Z.to_nat n)).
Definition range2 (a b : Z) : list Z :=
  map (fun i => a + Z.of_nat i) (seq 0 (Z.to_nat (b - a))).

(** [sum(l)] on integers and on floats. *)
Definition sum (l : list Z) : Z := fold_left Z.add l 0.
Definition sumQ (l : list Q) : Q := fold_left Qplus l (0 : Q).

(** [a / b] on numbers. *)
Definition true_div (a b : Q) : result Q :=
  if Qeq_bool b 0 then Raise ZeroDivisionError else Ok (a / b)%Q.

(** An index of a slice bound, as Python normalises it against the length
    [n]: a negative index counts from the end, everything is clamped. *)
Definition clamp_index (n i : Z) : Z :=
  if i <? 0 then Z.max (i + n) 0 else Z.min i n.

(** [l[a:b]] *)
Definition slice {A : Type} (l : list A) (a b : Z) : list A :=
  let a' := clamp_index (len l) a in
  let b' := clamp_index (len l) b in
  firstn (Z.to_nat (b' - a')) (skipn (Z.to_nat a') l).

(** [stride k c l]: skip [c] elements, keep one, skip [k - 1], keep one ... *)
Fixpoint stride {A : Type} (k c : nat) (l : list A) : list A :=
  match l with
  | [] => []
  | x :: rest =>
      match c with
      | O => x :: stride k (k - 1) rest
      | S c' => stride k c' rest
      end
  end.

(** [l[i::k]] for a start [i >= 0] and a step [k >= 1], the only way the
    program slices with a step. *)
Definition slice_step {A : Type} (l : list A) (i k : Z) : list A :=
  stride (Z.to_nat k) (Z.to_nat i) l.

(** [sorted]: Python's sort is stable.  [before y x] says that [y] has to
    come strictly before [x]; an element is inserted in front of the first
    one that need not precede it, so equal elements keep their order. *)
Fixpoint insert_by {A : Type} (before : A -> A -> bool) (x : A) (l : list A)
  : list A :=
  match l with
  | [] => [x]
  | y :: rest => if before y x then y :: insert_by before x rest else x :: l
  end.

Definition stable_sort {A : Type} (before : A -> A -> bool) (l : list A)
  : list A :=
  fold_right (insert_by before) [] l.

(** [sorted(s)] on a set of integers. *)
Definition sorted (l : list Z) : list Z := stable_sort Z.ltb l.

(** *** collections.Counter *)

Section Counter.
Context {K : Type} `{EqDec K}.

(** [c[x] = c.get(x, 0) + 1] *)
Definition counter_add (c : dict K Z) (x : K) : dict K Z :=
  setitem c x (get_default c x 0 + 1).

(** [Counter(iterable)] *)
Definition Counter (l : list K) : dict K Z := fold_left counter_add l [].

(** [sorted(c.items(), key=itemgetter(1), reverse=True)] *)
Definition by_count_desc (c : dict K Z) : list (K * Z) :=
  stable_sort (fun q p => snd p <? snd q) c.

(** [c.most_common(n)]: the documented equivalent of the
    [heapq.nlargest] call, which yields nothing for [n <= 0]. *)
Definition most_common (n : Z) (c : dict K Z) : list (K * Z) :=
  firstn (Z.to_nat n) (by_count_desc c).
End Counter.

(** ** extract_ngram_positions *)

Definition extract_ngram_positions (text : str) (n threshold : Z)
  : dict str (list Z) :=
  let positions :=
    fold_left (fun positions i => dict_append positions (slice text i (i + n)) i)
              (range (len text - n + 1)) [] in
  filter (fun '(ng, pos) => threshold <=? len pos) positions.

(** ** compute_pairwise_distances

    [pos_list[j]] is read with a default: [j] is always a valid index. *)

Definition compute_pairwise_distances (positions : dict str (list Z))
  : dict str (list Z) :=
  fold_left (fun distances '(ng, pos_list) =>
    fold_left (fun distances i =>
      fold_left (fun distances j =>
        dict_append distances ng
          (nth (Z.to_nat j) pos_list 0 - nth (Z.to_nat i) pos_list 0))
        (range2 (i + 1) (len pos_list)) distances)
      (range (len pos_list - 1)) distances)
    positions [].

(** ** get_divisors

    [math.isqrt] raises [ValueError] on a negative argument. *)

Definition isqrt (n : Z) : result Z :=
  if n <? 0 then Raise ValueError else Ok (Z.sqrt n).

Definition divs_add (x : Z) (divs : list Z) : list Z := set_add Z.eq_dec x divs.

(** The loop over the candidates [i], which fills the set [divs]. *)
Definition divs_loop (n : Z) (cands divs : list Z) : list Z :=
  fold_left (fun divs i =>
               if n mod i =? 0 then divs_add (n / i) (divs_add i divs) else divs)
            cands divs.

Definition get_divisors (n : Z) : result (list Z) :=
  limit <- isqrt n ;;
  let divs := divs_loop n (range2 2 (limit + 1)) [] in
  Ok (sorted (divs_add n divs)).

(** ** kasiski_test (the [print] calls are left out) *)

Definition factor_list_of (dist : list Z) : result (list Z) :=
  for_each (fun factor_list d => divs <- get_divisors d ;; Ok (factor_list ++ divs))
           dist [].

Definition kasiski_test (text : str) (n top_k threshold : Z)
  : result (list (Z * Z)) :=
  let positions := extract_ngram_positions text n threshold in
  let distances := compute_pairwise_distances positions in
  list_a <-
    for_each (fun list_a '(ng, dist) =>
                factor_list <- factor_list_of dist ;;
                let top_divisors := most_common top_k (Counter factor_list) in
                Ok (fold_left (fun list_a '(key, _) => list_a ++ [key])
                              top_divisors list_a))
             distances [] ;;
  let counter_b := Counter list_a in
  Ok (most_common top_k counter_b).

(** ** sum_dicts *)

Definition sum_dicts (dicts : list (dict Z Z)) : dict Z Z :=
  fold_left (fun result d =>
               fold_left (fun result '(key, freq) =>
                            setitem result key (get_default result key 0 + freq))
                         d result)
            dicts [].

(** ** index_of_coincidence *)

Definition ic_numerator (text : str) : Z :=
  sum (map (fun f => f * (f - 1)) (values (Counter text))).

Definition index_of_coincidence (text : str) : result Q :=
  let N := len text in
  if N <=? 1 then Ok (0 : Q)
  else true_div (inject_Z (ic_numerator text)) (inject_Z (N * (N - 1))).

(** ** group and average_ic_for_key_length *)

Definition group (text : str) (key_length : Z) : list str :=
  map (fun i => slice_step text i key_length) (range key_length).

Definition average_ic_for_key_length (text : str) (key_length : Z) : result Q :=
  let groups := group text key_length in
  ics <- map_result index_of_coincidence groups ;;
  true_div (sumQ ics) (inject_Z key_length).

(** ** chi_squared *)

Definition freq_pt : dict ascii Q :=
  [ ("A"%char, 14.7154); ("B"%char, 0.9926); ("C"%char, 3.8775);
    ("D"%char, 4.7958); ("E"%char, 12.7879); ("F"%char, 0.9868);
    ("G"%char, 1.1435); ("H"%char, 1.4840); ("I"%char, 6.1426);
    ("J"%char, 0.2787); ("K"%char, 0.0044); ("L"%char, 3.3069);
    ("M"%char, 4.8531); ("N"%char, 4.7498); ("O"%char, 10.5498);
    ("P"%char, 2.6743); ("Q"%char, 1.2897); ("R"%char, 6.3127);
    ("S"%char, 7.5612); ("T"%char, 4.2199); ("U"%char, 4.7630);
    ("V"%char, 1.6736); ("W"%char, 0.0011); ("X"%char, 0.2845);
    ("Y"%char, 0.0686); ("Z"%char, 0.4824) ]%Q.

(** [E_perc or 1] *)
Definition or_one (E_perc : Q) : Q := if Qeq_bool E_perc 0 then 1%Q else E_perc.

Definition chi_squared (obs_counts : dict ascii Z) (total_len shift : Z)
  : result Q :=
  for_each (fun chi2 '(L, E_perc) =>
              let shifted_letter :=
                chr ((ord L - ord "A" + shift) mod 26 + ord "A") in
              let observed := get_default obs_counts shifted_letter 0 in
              r <- true_div (inject_Z observed) (inject_Z total_len) ;;
              let O := (r * 100)%Q in
              t <- true_div ((O - E_perc) ^ 2)%Q (or_one E_perc) ;;
              Ok (chi2 + t)%Q)
           freq_pt (0 : Q).

(** ** The script

    [text] is the result of [load_ciphertext].  A float that may be
    [float('inf')] is an [option Q], [None] standing for infinity. *)

Definition tests : list (Z * Z) := [(3, 6); (4, 5); (5, 3); (6, 2); (7, 2)].
Definition top : Z := 3.

Definition kasiski_stage (text : str) : result (dict Z Z) :=
  list_dicts <-
    map_result (fun '(n, threshold) =>
                  result0 <- kasiski_test text n top threshold ;;
                  Ok (list_to_dict result0))
               tests ;;
  Ok (sum_dicts list_dicts).

(** [Counter(sums)] copies the dictionary; the loop keeps the lengths
    above 2 among [count.most_common(3)]. *)
Definition possible_keys_length (sums : dict Z Z) : list Z :=
  let count := sums in
  fold_left (fun possible '(length0, freq) =>
               if 2 <? length0 then possible ++ [length0] else possible)
            (most_common 3 count) [].

(** The loop over [possible_keys_length]; [greatest] starts as [(0, 0)]. *)
Definition select_key_length (text : str) (possible : list Z) : result (Z * Q) :=
  for_each (fun greatest k =>
              ic_avg <- average_ic_for_key_length text k ;;
              Ok (if Qlt_le_dec (snd greatest) ic_avg then (k, ic_avg)
                  else greatest))
           possible (0, 0 : Q).

Definition float_ltb (score : Q) (best_score : option Q) : bool :=
  match best_score with
  | None => true
  | Some b => if Qlt_le_dec score b then true else false
  end.

(** The scan of the 26 shifts of one column. *)
Definition best_shift (counts : dict ascii Z) (n : Z) : result Z :=
  best <-
    for_each (fun '(best_k, best_score) k =>
                score <- chi_squared counts n k ;;
                Ok (if float_ltb score best_score then (k, Some score)
                    else (best_k, best_score)))
             (range 26) (0, None) ;;
  Ok (fst best).

Definition recover_key (text : str) (key_length : Z) : result str :=
  map_result (fun i =>
                let group_i := slice_step text i key_length in
                let counts := Counter group_i in
                let n := len group_i in
                best_k <- best_shift counts n ;;
                Ok (chr (best_k + ord "A")))
             (range key_length).

(** What the script computes after [load_ciphertext]. *)
Record run : Type := mk_run {
  run_possible : list Z;     (* possible_keys_length *)
  run_greatest : Z * Q;      (* greatest *)
  run_key : str;             (* estimated_key *)
  run_plain : str            (* the decrypted prefix that is printed last *)
}.

Definition main (text : str) : result run :=
  sums <- kasiski_stage text ;;
  let possible := possible_keys_length sums in
  greatest <- select_key_length text possible ;;
  estimated_key <- recover_key text (fst greatest) ;;
  plain <- decrypt_vigenere (slice text 0 500) estimated_key ;;
  Ok (mk_run possible greatest estimated_key plain).

(** ** Vocabulary of the properties *)

(** The decryptor as a function of the text alone: [shifted] tells which
    characters are shifted back and consume a key position; the cursor
    [ki] counts the key positions consumed so far. *)
Fixpoint decrypt_with (shifted : ascii -> bool) (key : str) (ki : nat)
  (text : str) : str :=
  match text with
  | [] => []
  | c :: rest =>
      if shifted c
      then shift_back c (key_char key ki) :: decrypt_with shifted key (S ki) rest
      else c :: decrypt_with shifted key ki rest
  end.

(** Sums over a list of indices. *)
Definition big_sum {A : Type} (f : A -> Z) (l : list A) : Z :=
  fold_right (fun x acc => f x + acc) 0 l.

Definition big_sumQ {A : Type} (f : A -> Q) (l : list A) : Q :=
  fold_right (fun x acc => f x + acc)%Q (0 : Q) l.

(** *** Ranking by votes *)

Section Ranking.
Context {K : Type} `{EqDec K}.

(** The number of times [x] was voted for. *)
Definition votes (l : list K) (x : K) : Z := Z.of_nat (count_occ eq_dec l x).

(** Where [x] is first encountered in [l]. *)
Fixpoint first_index (l : list K) (x : K) : nat :=
  match l with
  | [] => O
  | y :: rest => if eq_dec x y then O else S (first_index rest x)
  end.

(** [x] ranks before [y]: more votes, or as many and encountered first. *)
Definition outranks (l : list K) (x y : K) : Prop :=
  votes l y < votes l x \/
  (votes l x = votes l y /\ (first_index l x < first_index l y)%nat).

(** [res] is the top [k] of the vote list [l]: the [k] best ranked of the
    values voted for (all of them when there are fewer), each with its
    number of votes, the best first. *)
Definition is_top (k : Z) (l : list K) (res : list (K * Z)) : Prop :=
  length res = Nat.min (Z.to_nat k) (length (nodup eq_dec l)) /\
  (forall x c, In (x, c) res -> In x l /\ c = votes l x) /\
  StronglySorted (fun p q => outranks l (fst p) (fst q)) res /\
  (forall x y, In x (map fst res) -> In y l -> ~ In y (map fst res) ->
               outranks l x y).
End Ranking.

(** Every pair of positions of one n-gram, the distance being the later
    position minus the earlier one. *)
Fixpoint pairwise (pos_list : list Z) : list Z :=
  match pos_list with
  | [] => []
  | p :: rest => map (fun q => q - p) rest ++ pairwise rest
  end.

(** The distances the two inner loops of [compute_pairwise_distances]
    append for one n-gram, in the order they are appended. *)
Definition distances_loop (pos_list : list Z) : list Z :=
  flat_map (fun i =>
              map (fun j => nth (Z.to_nat j) pos_list 0 - nth (Z.to_nat i) pos_list 0)
                  (range2 (i + 1) (len pos_list)))
           (range (len pos_list - 1)).

(** The entry of [distances] for one n-gram: there is none when the n-gram
    has no pair of positions. *)
Definition distances_entry (entry : str * list Z) : dict str (list Z) :=
  match pairwise (snd entry) with
  | [] => []
  | dist => [(fst entry, dist)]
  end.

(** The votes one n-gram with the positions [pos_list] contributes:
    [kept] is the top [top_k] of the divisors of all its distances. *)
Definition ngram_votes (top_k : Z) (pos_list : list Z) (kept : list (Z * Z))
  : Prop :=
  exists divisors,
    Forall2 (fun d ds => get_divisors d = Ok ds) (pairwise pos_list) divisors /\
    is_top top_k (concat divisors) kept.

(** *** Index of coincidence *)

(** The frequency of a character in a text. *)
Definition frequency (text : str) (c : ascii) : Z :=
  Z.of_nat (count_occ ascii_dec text c).

(** The 26 letters, and all 256 characters. *)
Definition letter (i : Z) : ascii := chr (ord "A" + i).
Definition letters : list ascii := map letter (range 26).
Definition all_chars : list ascii := map chr (range 256).

(** [Σ f (f - 1)] over an alphabet. *)
Definition coincidences (alphabet : list ascii) (text : str) : Z :=
  big_sum (fun c => frequency text c * (frequency text c - 1)) alphabet.

(** *** Chi-squared *)

Definition expected (i : Z) : Q := get_default freq_pt (letter i) (0 : Q).

Definition observed_percent (obs_counts : dict ascii Z) (total_len : Z)
  (c : ascii) : Q :=
  (inject_Z (get_default obs_counts c 0%Z) / inject_Z total_len * 100)%Q.

Definition chi_squared_term (obs_counts : dict ascii Z) (total_len shift : Z)
  (i : Z) : Q :=
  let E := expected i in
  let O := observed_percent obs_counts total_len (letter ((i + shift) mod 26)) in
  ((O - E) ^ 2 / or_one E)%Q.

Definition chi_squared_sum (obs_counts : dict ascii Z) (total_len shift : Z) : Q :=
  big_sumQ (chi_squared_term obs_counts total_len shift) (range 26).

(** The summand of the loop of [chi_squared] for one entry of the table. *)
Definition chi_term (obs_counts : dict ascii Z) (total_len shift : Z)
  (entry : ascii * Q) : Q :=
  let O := observed_percent obs_counts total_len
             (chr ((ord (fst entry) - ord "A" + shift) mod 26 + ord "A")) in
  ((O - snd entry) ^ 2 / or_one (snd entry))%Q.

(** *** Columns *)

(** Position [j] of the interleaved text is taken from column [j mod k]. *)
Definition interleave {A : Type} (d : A) (cols : list (list A)) : list A :=
  let k := length cols in
  map (fun j => nth (j / k) (nth (j mod k) cols []) d)
      (seq 0 (length (concat cols))).

(** The positions of a text of length [n] that are congruent to [i]. *)
Definition positions_of_column (n k i : nat) : list nat :=
  filter (fun j => Nat.eqb (j mod k) i) (seq 0 n).

(** * Properties *)
(** ** Characters *)

Lemma ord_range (c : ascii) : 0 <= ord c < 256.
Proof.
  unfold ord. pose proof (nat_ascii_bounded c). lia.
Qed.

Lemma ord_chr (z : Z) : 0 <= z < 256 -> ord (chr z) = z.
Proof.
  intros Hz. unfold ord, chr.
  rewrite nat_ascii_embedding by lia. lia.
Qed.

Lemma chr_ord (c : ascii) : chr (ord c) = c.
Proof.
  unfold ord, chr. rewrite Nat2Z.id. apply ascii_nat_embedding.
Qed.

Lemma is_upper_iff (c : ascii) : is_upper c = true <-> 65 <= ord c <= 90.
Proof.
  unfold is_upper. rewrite andb_true_iff, !Z.leb_le.
  change (ord "A") with 65. change (ord "Z") with 90. tauto.
Qed.

Lemma is_upper_shift_forward (c k : ascii) : is_upper (shift_forward c k) = true.
Proof.
  apply is_upper_iff. unfold shift_forward. change (ord "A") with 65.
  pose proof (Z.mod_pos_bound (ord c - 65 + (ord k - 65)) 26 ltac:(lia)).
  rewrite ord_chr; lia.
Qed.

Lemma shift_back_forward (c k : ascii) :
  is_upper c = true -> shift_back (shift_forward c k) k = c.
Proof.
  intros Hc. apply is_upper_iff in Hc.
  unfold shift_back, shift_forward. change (ord "A") with 65.
  pose proof (Z.mod_pos_bound (ord c - 65 + (ord k - 65)) 26 ltac:(lia)).
  rewrite ord_chr by lia.
  replace ((ord c - 65 + (ord k - 65)) mod 26 + 65 - 65)
    with ((ord c - 65 + (ord k - 65)) mod 26) by lia.
  rewrite Zminus_mod_idemp_l.
  replace (ord c - 65 + (ord k - 65) - (ord k - 65)) with (ord c - 65) by lia.
  rewrite Z.mod_small by lia.
  replace (ord c - 65 + 65) with (ord c) by lia.
  apply chr_ord.
Qed.

(** ** The decryption loop *)

Lemma key_lookup (key : str) (ki : nat) :
  key <> [] ->
  (i <- py_mod (Z.of_nat ki) (len key) ;; index key i) = Ok (key_char key ki).
Proof.
  intros Hkey. unfold py_mod, len.
  assert (Hlen : (0 < length key)%nat) by (destruct key; simpl; [congruence | lia]).
  destruct (Z.eqb_spec (Z.of_nat (length key)) 0) as [E | _]; [lia |].
  simpl. unfold index, key_char.
  rewrite <- Nat2Z.inj_mod, Nat2Z.id.
  rewrite nth_error_nth' with (d := "A"%char); [reflexivity |].
  apply Nat.mod_upper_bound. lia.
Qed.

Lemma decrypt_loop (key : str) :
  key <> [] ->
  forall (text acc : str) (ki : nat),
    for_each (decrypt_step key) text (mk_dec acc (Z.of_nat ki))
    = Ok (mk_dec (acc ++ decrypt_with is_upper key ki text)
                 (Z.of_nat (ki + count_upper text))).
Proof.
  intros Hkey. induction text as [| c rest IH]; intros acc ki.
  - simpl. rewrite app_nil_r, Nat.add_0_r. reflexivity.
  - simpl. unfold decrypt_step at 1. unfold count_upper. simpl.
    destruct (is_upper c) eqn:Hc.
    + simpl dec_ki. simpl dec_result.
      pose proof (key_lookup key ki Hkey) as Hk.
      destruct (py_mod (Z.of_nat ki) (len key)) as [i | e]; simpl in Hk;
        [| discriminate].
      simpl. rewrite Hk. simpl.
      replace (Z.of_nat ki + 1) with (Z.of_nat (S ki)) by lia.
      rewrite IH. unfold count_upper. rewrite <- app_assoc. simpl.
      do 2 f_equal. lia.
    + simpl. rewrite IH. unfold count_upper. rewrite <- app_assoc. reflexivity.
Qed.

Lemma decrypt_vigenere_eq (text key : str) :
  key <> [] -> decrypt_vigenere text key = Ok (decrypt_with is_upper key 0 text).
Proof.
  intros Hkey. unfold decrypt_vigenere.
  change 0 with (Z.of_nat 0). rewrite decrypt_loop by assumption. reflexivity.
Qed.

Lemma decrypt_with_length (shifted : ascii -> bool) (key text : str) (ki : nat) :
  length (decrypt_with shifted key ki text) = length text.
Proof.
  revert ki. induction text as [| c rest IH]; intros ki; simpl; [reflexivity |].
  destruct (shifted c); simpl; rewrite IH; reflexivity.
Qed.

Lemma decrypt_encrypt_from (key text : str) (ki : nat) :
  Forall (fun c => is_upper c = true) text ->
  decrypt_with is_upper key ki (encrypt_from key ki text) = text.
Proof.
  intros Hall. revert ki. induction Hall as [| c rest Hc _ IH]; intros ki; simpl.
  - reflexivity.
  - rewrite is_upper_shift_forward. unfold key_char.
    rewrite shift_back_forward by assumption. rewrite IH. reflexivity.
Qed.

(** C2: decrypting what the forward-shift encryptor produced gives the text
    back, for every non-empty key of letters A-Z and every text of
    uppercase letters A-Z. *)
Theorem decrypt_encrypt_roundtrip (T K : str) :
  K <> [] ->
  Forall (fun k => is_upper k = true) K ->
  Forall (fun c => is_upper c = true) T ->
  decrypt_vigenere (encrypt_vigenere T K) K = Ok T.
Proof.
  intros HK _ HT. rewrite decrypt_vigenere_eq by assumption.
  unfold encrypt_vigenere. rewrite decrypt_encrypt_from by assumption.
  reflexivity.
Qed.

Lemma decrypt_encrypt_roundtrip_witness :
  decrypt_vigenere
    (encrypt_vigenere (list_ascii_of_string "ATTACKATDAWN")
                      (list_ascii_of_string "LEMON"))
    (list_ascii_of_string "LEMON")
  = Ok (list_ascii_of_string "ATTACKATDAWN").
Proof.
  apply decrypt_encrypt_roundtrip.
  - discriminate.
  - repeat constructor.
  - repeat constructor.
Defined.

Lemma decrypt_with_app (shifted : ascii -> bool) (key pre post : str) (ki : nat) :
  decrypt_with shifted key ki (pre ++ post)
  = decrypt_with shifted key ki pre
      ++ decrypt_with shifted key (ki + length (filter shifted pre)) post.
Proof.
  revert ki. induction pre as [| c rest IH]; intros ki; simpl.
  - rewrite Nat.add_0_r. reflexivity.
  - destruct (shifted c); simpl; rewrite IH; do 2 f_equal.
    f_equal. lia.
Qed.

(** C4, as the code has it: the characters that are shifted back and
    consume a key position are the uppercase letters A-Z; every other
    character, a lowercase letter included, is copied and leaves the
    cursor where it is.  So the character after the prefix [pre] meets the
    key position [count_upper pre] (taken modulo the key length by
    [key_char]). *)
Theorem decrypt_vigenere_cursor (text key : str) :
  key <> [] ->
  exists out,
    decrypt_vigenere text key = Ok out /\
    out = decrypt_with is_upper key 0 text /\
    forall pre c post,
      text = pre ++ c :: post ->
      nth_error out (length pre)
      = Some (if is_upper c
              then shift_back c (key_char key (count_upper pre))
              else c).
Proof.
  intros Hkey. exists (decrypt_with is_upper key 0 text).
  split; [apply decrypt_vigenere_eq; assumption |].
  split; [reflexivity |].
  intros pre c post ->. rewrite decrypt_with_app.
  rewrite nth_error_app2; rewrite decrypt_with_length; [| lia].
  rewrite Nat.sub_diag. simpl.
  destruct (is_upper c); reflexivity.
Qed.

Lemma decrypt_vigenere_cursor_witness :
  exists out,
    decrypt_vigenere (list_ascii_of_string "LX, fo") (list_ascii_of_string "LEMON")
    = Ok out /\
    out = decrypt_with is_upper (list_ascii_of_string "LEMON") 0
            (list_ascii_of_string "LX, fo") /\
    forall pre c post,
      list_ascii_of_string "LX, fo" = pre ++ c :: post ->
      nth_error out (length pre)
      = Some (if is_upper c
              then shift_back c
                     (key_char (list_ascii_of_string "LEMON") (count_upper pre))
              else c).
Proof.
  apply (decrypt_vigenere_cursor (list_ascii_of_string "LX, fo")
                                 (list_ascii_of_string "LEMON")).
  discriminate.
Defined.

(** C4 as worded fails on a lowercase letter: it is alphabetic, yet the
    decryptor copies it and keeps the key position for the next letter. *)
Lemma decrypt_vigenere_lowercase_counterexample :
  isalpha "a" = true /\
  decrypt_vigenere (list_ascii_of_string "aB") (list_ascii_of_string "BC")
  = Ok (list_ascii_of_string "aA") /\
  decrypt_with isalpha (list_ascii_of_string "BC") 0 (list_ascii_of_string "aB")
  = list_ascii_of_string "FZ" /\
  decrypt_vigenere (list_ascii_of_string "aB") (list_ascii_of_string "BC")
  <> Ok (decrypt_with isalpha (list_ascii_of_string "BC") 0
           (list_ascii_of_string "aB")).
Proof.
  repeat split. discriminate.
Qed.

(** C10: with a non-empty key the decryptor returns, and its output is as
    long as its input. *)
Theorem decrypt_vigenere_length (text key : str) :
  key <> [] ->
  exists out, decrypt_vigenere text key = Ok out /\ length out = length text.
Proof.
  intros Hkey. exists (decrypt_with is_upper key 0 text). split.
  - apply decrypt_vigenere_eq. assumption.
  - apply decrypt_with_length.
Qed.

Lemma decrypt_vigenere_length_witness :
  exists out,
    decrypt_vigenere (list_ascii_of_string "LXFOPV, EF") (list_ascii_of_string "LEMON")
    = Ok out /\ length out = 10%nat.
Proof.
  apply (decrypt_vigenere_length (list_ascii_of_string "LXFOPV, EF")
                                 (list_ascii_of_string "LEMON")).
  discriminate.
Defined.

(** ** Loops over ranges *)

Lemma in_range (n i : Z) : In i (range n) <-> 0 <= i < n.
Proof.
  unfold range. rewrite in_map_iff. split.
  - intros (k & <- & Hk). apply in_seq in Hk. lia.
  - intros Hi. exists (Z.to_nat i). split; [lia |]. apply in_seq. lia.
Qed.

Lemma in_range2 (a b i : Z) : In i (range2 a b) <-> a <= i < b.
Proof.
  unfold range2. rewrite in_map_iff. split.
  - intros (k & <- & Hk). apply in_seq in Hk. lia.
  - intros Hi. exists (Z.to_nat (i - a)). split; [lia |]. apply in_seq. lia.
Qed.

(** ** The stable sort *)

Section StableSort.
Context {A : Type}.
Variable before : A -> A -> bool.

Lemma insert_by_perm (x : A) (l : list A) :
  Permutation (insert_by before x l) (x :: l).
Proof.
  induction l as [| y r IH]; simpl; [reflexivity |].
  destruct (before y x); [| reflexivity].
  rewrite IH. apply perm_swap.
Qed.

Lemma stable_sort_perm (l : list A) : Permutation (stable_sort before l) l.
Proof.
  induction l as [| x r IH]; simpl; [reflexivity |].
  rewrite insert_by_perm. constructor. exact IH.
Qed.

(** [B] is the order of the input, [R] the order of the output. *)
Variables B R : A -> A -> Prop.
Hypothesis R_before : forall y x, before y x = true -> R y x.
Hypothesis R_first : forall y x, before y x = false -> B x y -> R x y.
Hypothesis R_pass :
  forall x y z, before y x = false -> R y z -> B x z -> R x z.

Lemma insert_by_sorted (x : A) (s : list A) :
  StronglySorted R s -> Forall (B x) s ->
  StronglySorted R (insert_by before x s).
Proof.
  induction 1 as [| y r Hr IH Hy]; intros HB; simpl.
  - repeat constructor.
  - inversion HB as [| ? ? Hxy Hxr]; subst.
    destruct (before y x) eqn:E.
    + constructor; [apply IH; assumption |].
      rewrite insert_by_perm. constructor; [apply R_before; assumption | assumption].
    + constructor; [constructor; assumption |].
      constructor; [apply R_first; assumption |].
      rewrite Forall_forall in Hy, Hxr |- *. intros z Hz.
      apply R_pass with (y := y); auto.
Qed.

Lemma stable_sort_sorted (l : list A) :
  StronglySorted B l -> StronglySorted R (stable_sort before l).
Proof.
  induction 1 as [| x r Hr IH Hx]; simpl; [constructor |].
  apply insert_by_sorted; [assumption |].
  rewrite stable_sort_perm. assumption.
Qed.
End StableSort.

Lemma NoDup_sorted_neq {A : Type} (l : list A) :
  NoDup l -> StronglySorted (fun x y => x <> y) l.
Proof.
  induction 1 as [| x r Hx Hr IH]; constructor; [assumption |].
  apply Forall_forall. intros y Hy ->. contradiction.
Qed.

Lemma sorted_perm (l : list Z) : Permutation (sorted l) l.
Proof.
  apply stable_sort_perm.
Qed.

Lemma sorted_ascending (l : list Z) : NoDup l -> StronglySorted Z.lt (sorted l).
Proof.
  intros Hl. unfold sorted.
  apply stable_sort_sorted with (B := fun x y => x <> y).
  - intros y x E. apply Z.ltb_lt. assumption.
  - intros y x E Hne. apply Z.ltb_ge in E. lia.
  - intros x y z E Hyz _. apply Z.ltb_ge in E. lia.
  - apply NoDup_sorted_neq. assumption.
Qed.

(** ** get_divisors *)

Lemma divs_add_in (x y : Z) (divs : list Z) :
  In y (divs_add x divs) <-> y = x \/ In y divs.
Proof.
  unfold divs_add. rewrite set_add_iff. tauto.
Qed.

Lemma divs_loop_in (n : Z) (cands divs : list Z) (d : Z) :
  In d (divs_loop n cands divs) <->
  In d divs \/ exists i, In i cands /\ n mod i = 0 /\ (d = i \/ d = n / i).
Proof.
  revert divs. induction cands as [| i rest IH]; intros divs; simpl.
  - split; [auto | intros [H | (i & [] & _)]; assumption].
  - unfold divs_loop in *. simpl. rewrite IH.
    destruct (Z.eqb_spec (n mod i) 0) as [E | E].
    + rewrite !divs_add_in. split.
      * intros [[-> | [-> | H]] | (j & Hj & Hm & Hd)]; eauto 8.
      * intros [H | (j & [<- | Hj] & Hm & [-> | ->])]; eauto 8.
    + split.
      * intros [H | (j & Hj & Hm & Hd)]; eauto 8.
      * intros [H | (j & [<- | Hj] & Hm & Hd)]; eauto 8; contradiction.
Qed.

Lemma divs_loop_nodup (n : Z) (cands divs : list Z) :
  NoDup divs -> NoDup (divs_loop n cands divs).
Proof.
  revert divs. induction cands as [| i rest IH]; intros divs Hd; simpl;
    [assumption |].
  apply IH. destruct (n mod i =? 0); [| assumption].
  unfold divs_add. do 2 apply set_add_nodup. assumption.
Qed.

Lemma get_divisors_eq (n : Z) :
  0 <= n ->
  get_divisors n
  = Ok (sorted (divs_add n (divs_loop n (range2 2 (Z.sqrt n + 1)) []))).
Proof.
  intros Hn. unfold get_divisors, isqrt.
  destruct (Z.ltb_spec n 0); [lia | reflexivity].
Qed.

Lemma small_divisor_pair (n i : Z) :
  2 <= n -> 2 <= i <= Z.sqrt n -> n mod i = 0 ->
  (i | n) /\ (n / i | n) /\ 2 <= n / i.
Proof.
  intros Hn Hi Hm.
  pose proof (Z.sqrt_spec n ltac:(lia)) as [Hlo _].
  assert (Hdiv : n = i * (n / i)) by (apply Z.div_exact; lia).
  repeat split.
  - exists (n / i). lia.
  - exists i. lia.
  - assert (i * i <= Z.sqrt n * Z.sqrt n) by nia.
    apply Z.div_le_lower_bound; nia.
Qed.

Lemma large_divisor_quotient (n d : Z) :
  2 <= n -> 2 <= d -> (d | n) -> Z.sqrt n < d -> d <> n ->
  2 <= n / d <= Z.sqrt n /\ n mod (n / d) = 0 /\ d = n / (n / d).
Proof.
  intros Hn Hd [q Hq] Hlarge Hne.
  pose proof (Z.sqrt_spec n ltac:(lia)) as [_ Hhi].
  assert (Hnd : n / d = q) by (subst n; apply Z.div_mul; lia).
  rewrite Hnd.
  assert (Hq0 : 0 < q) by nia.
  assert (Hq1 : 2 <= q).
  { destruct (Z.eq_dec q 1) as [-> | ?]; lia. }
  assert (Hq2 : q <= Z.sqrt n).
  { destruct (Z_le_gt_dec q (Z.sqrt n)) as [? | Hgt]; [assumption |].
    assert ((Z.sqrt n + 1) * (Z.sqrt n + 1) <= q * d)
      by (pose proof (Z.sqrt_nonneg n); apply Z.mul_le_mono_nonneg; lia).
    lia. }
  repeat split; try lia.
  - apply Z.mod_divide; [lia |]. exists d. lia.
  - subst n. rewrite Z.mul_comm. symmetry. apply Z.div_mul. lia.
Qed.

Lemma get_divisors_members (n : Z) :
  2 <= n ->
  forall d,
    In d (divs_add n (divs_loop n (range2 2 (Z.sqrt n + 1)) []))
    <-> 2 <= d /\ (d | n).
Proof.
  intros Hn d. rewrite divs_add_in, divs_loop_in. split.
  - intros [-> | [[] | (i & Hi & Hm & Hd)]].
    + split; [lia | apply Z.divide_refl].
    + apply in_range2 in Hi.
      destruct (small_divisor_pair n i Hn ltac:(lia) Hm) as (H1 & H2 & H3).
      destruct Hd as [-> | ->]; split; (lia || assumption).
  - intros [Hd Hdiv].
    destruct (Z.eq_dec d n) as [-> | Hne]; [left; reflexivity | right; right].
    destruct (Z_le_gt_dec d (Z.sqrt n)) as [Hsmall | Hlarge].
    + exists d. split; [apply in_range2; lia |]. split; [| left; reflexivity].
      apply Z.mod_divide; [lia | assumption].
    + destruct (large_divisor_quotient n d Hn Hd Hdiv ltac:(lia) Hne)
        as (Hq & Hm & Heq).
      exists (n / d). split; [apply in_range2; lia |]. split; [assumption |].
      right. assumption.
Qed.

(** C3, as the code has it: for every [n >= 2] the result is ascending,
    non-empty, contains [n], nothing above [n], nothing below 2, and
    exactly the integers from 2 on that divide [n]; and [get_divisors 0]
    is the one-element sequence [0], reached without a division by zero. *)
Theorem get_divisors_spec :
  (forall n, 2 <= n ->
     exists l,
       get_divisors n = Ok l /\
       l <> [] /\
       StronglySorted Z.lt l /\
       In n l /\
       (forall d, In d l -> d <= n) /\
       (forall d, In d l -> 2 <= d) /\
       (forall d, In d l <-> 2 <= d /\ (d | n))) /\
  get_divisors 0 = Ok [0].
Proof.
  split; [| reflexivity].
  intros n Hn. eexists. split; [apply get_divisors_eq; lia |].
  set (divs := divs_add n (divs_loop n (range2 2 (Z.sqrt n + 1)) [])).
  assert (Hmem : forall d, In d (sorted divs) <-> 2 <= d /\ (d | n)).
  { intros d. rewrite <- (get_divisors_members n Hn d). fold divs.
    split; apply Permutation_in;
      [apply sorted_perm | symmetry; apply sorted_perm]. }
  assert (Hin : In n (sorted divs)).
  { apply Hmem. split; [lia | apply Z.divide_refl]. }
  split; [intros E; rewrite E in Hin; contradiction |].
  split.
  { apply sorted_ascending. unfold divs, divs_add.
    apply set_add_nodup, divs_loop_nodup. constructor. }
  split; [assumption |].
  split.
  { intros d Hd. apply Hmem in Hd as [Hd Hdiv].
    apply Z.divide_pos_le; [lia | assumption]. }
  split; [intros d Hd; apply Hmem in Hd; tauto | exact Hmem].
Qed.

Lemma get_divisors_spec_witness :
  2 <= 12 /\
  exists l,
    get_divisors 12 = Ok l /\
    l <> [] /\
    StronglySorted Z.lt l /\
    In 12 l /\
    (forall d, In d l -> d <= 12) /\
    (forall d, In d l -> 2 <= d) /\
    (forall d, In d l <-> 2 <= d /\ (d | 12)).
Proof.
  split; [lia |]. apply (proj1 get_divisors_spec 12). lia.
Defined.

(** C3 as worded fails at 0: the result holds 0, it is not empty. *)
Lemma get_divisors_zero_counterexample :
  get_divisors 0 = Ok [0] /\ get_divisors 0 <> Ok [].
Proof.
  split; [reflexivity | discriminate].
Qed.

(** ** Columns *)

Lemma stride_nth {A : Type} (d : A) (k : nat) :
  (1 <= k)%nat ->
  forall (l : list A) (c m : nat),
    nth m (stride k c l) d = nth (c + m * k) l d.
Proof.
  intros Hk. induction l as [| x r IH]; intros c m.
  - simpl. destruct m, (c + _)%nat; reflexivity.
  - destruct c as [| c']; simpl.
    + destruct m as [| m']; [reflexivity |].
      rewrite IH. simpl.
      replace (k + m' * k)%nat with (S (k - 1 + m' * k)) by lia.
      reflexivity.
    + apply IH.
Qed.

Lemma stride_snoc {A : Type} (k : nat) (x : A) :
  (1 <= k)%nat ->
  forall (l : list A) (c : nat),
    stride k c (l ++ [x])
    = stride k c l
        ++ (if (c <=? length l)%nat && ((length l - c) mod k =? 0)%nat
            then [x] else []).
Proof.
  intros Hk. induction l as [| y r IH]; intros c.
  - destruct c as [| c']; simpl; [| reflexivity].
    rewrite Nat.Div0.mod_0_l. reflexivity.
  - destruct c as [| c'].
    + simpl stride. rewrite IH. simpl. do 2 f_equal.
      assert (E : ((k - 1 <=? length r)%nat
                   && ((length r - (k - 1)) mod k =? 0)%nat)
                  = (S (length r) mod k =? 0)%nat).
      { destruct (Nat.leb_spec (k - 1) (length r)) as [Hle | Hgt]; simpl.
        - replace (S (length r)) with ((length r - (k - 1)) + 1 * k)%nat by lia.
          rewrite Nat.Div0.mod_add. reflexivity.
        - symmetry. apply Nat.eqb_neq.
          rewrite Nat.mod_small by lia. lia. }
      rewrite E. reflexivity.
    + simpl. apply IH.
Qed.

Lemma column_member (k i n : nat) :
  (i < k)%nat ->
  ((i <=? n)%nat && ((n - i) mod k =? 0)%nat) = (n mod k =? i)%nat.
Proof.
  intros Hi.
  destruct (Nat.leb_spec i n) as [Hle | Hgt]; simpl.
  - destruct (Nat.eqb_spec ((n - i) mod k) 0) as [E | E];
      destruct (Nat.eqb_spec (n mod k) i) as [F | F]; try reflexivity; exfalso.
    + apply F. replace n with (i + (n - i))%nat by lia.
      rewrite Nat.Div0.add_mod, E, Nat.add_0_r, Nat.Div0.mod_mod.
      apply Nat.mod_small. assumption.
    + apply E. pose proof (Nat.div_mod_eq n k) as Hn. rewrite F in Hn.
      replace (n - i)%nat with (n / k * k)%nat by lia.
      apply Nat.Div0.mod_mul.
  - symmetry. apply Nat.eqb_neq. rewrite Nat.mod_small by lia. lia.
Qed.

Lemma positions_of_column_S (n k i : nat) :
  positions_of_column (S n) k i
  = positions_of_column n k i ++ (if (n mod k =? i)%nat then [n] else []).
Proof.
  unfold positions_of_column. rewrite seq_S, filter_app. reflexivity.
Qed.

Lemma positions_of_column_bound (n k i j : nat) :
  In j (positions_of_column n k i) -> (j < n)%nat.
Proof.
  unfold positions_of_column. rewrite filter_In, in_seq. lia.
Qed.

Lemma stride_positions {A : Type} (d : A) (k i : nat) (l : list A) :
  (i < k)%nat ->
  stride k i l = map (fun j => nth j l d) (positions_of_column (length l) k i).
Proof.
  intros Hi. induction l as [| x r IH] using rev_ind; [reflexivity |].
  rewrite stride_snoc by lia. rewrite column_member by assumption.
  rewrite length_app. simpl length.
  replace (length r + 1)%nat with (S (length r)) by lia.
  rewrite positions_of_column_S, map_app, IH. f_equal.
  - apply map_ext_in. intros j Hj. apply positions_of_column_bound in Hj.
    rewrite app_nth1 by assumption. reflexivity.
  - destruct (length r mod k =? i)%nat; [| reflexivity].
    simpl. rewrite nth_middle. reflexivity.
Qed.

Lemma stride_total_length {A : Type} (k : nat) (l : list A) :
  (1 <= k)%nat ->
  length (concat (map (fun c => stride k c l) (seq 0 k))) = length l.
Proof.
  intros Hk. induction l as [| x r IH].
  - clear Hk. generalize 0%nat. induction k as [| k IHk]; intros a; simpl;
      [reflexivity | apply IHk].
  - destruct k as [| k']; [lia |].
    rewrite seq_S in IH. rewrite map_app, concat_app, length_app in IH.
    simpl in IH. rewrite app_nil_r in IH.
    change (seq 0 (S k')) with (0%nat :: seq 1 k').
    rewrite <- seq_shift, map_cons, map_map. simpl.
    rewrite Nat.sub_0_r. rewrite length_app. lia.
Qed.

Lemma nth_map_seq {B : Type} (f : nat -> B) (n i : nat) (d : B) :
  (i < n)%nat -> nth i (map f (seq 0 n)) d = f i.
Proof.
  intros Hi.
  rewrite nth_indep with (d' := f 0%nat)
    by (rewrite length_map, length_seq; assumption).
  rewrite map_nth, seq_nth by assumption. reflexivity.
Qed.

Lemma group_columns (text : str) (k : Z) :
  group text k = map (fun c => stride (Z.to_nat k) c text) (seq 0 (Z.to_nat k)).
Proof.
  unfold group, range, slice_step. rewrite map_map.
  apply map_ext. intros c. rewrite Nat2Z.id. reflexivity.
Qed.

Lemma group_length (text : str) (k : Z) : length (group text k) = Z.to_nat k.
Proof.
  rewrite group_columns, length_map, length_seq. reflexivity.
Qed.

Lemma group_nth (text : str) (k : Z) (i : nat) :
  (i < Z.to_nat k)%nat ->
  nth i (group text k) [] = stride (Z.to_nat k) i text.
Proof.
  intros Hi. rewrite group_columns.
  apply (nth_map_seq (fun c => stride (Z.to_nat k) c text)). assumption.
Qed.

(** C8: for every text and every key length [k >= 1], taking position [j]
    from column [j mod k] of [group text k] rebuilds the text, and column
    [i] is made of the characters at the positions congruent to [i]
    modulo [k], in order. *)
Theorem group_interleave (text : str) (k : Z) (d : ascii) :
  1 <= k ->
  interleave d (group text k) = text /\
  forall i, (i < Z.to_nat k)%nat ->
    nth i (group text k) []
    = map (fun j => nth j text d)
          (positions_of_column (length text) (Z.to_nat k) i).
Proof.
  intros Hk. assert (Hk' : (1 <= Z.to_nat k)%nat) by lia. split.
  - unfold interleave. rewrite group_length.
    rewrite group_columns, stride_total_length by assumption.
    rewrite <- group_columns.
    apply nth_ext with (d := d) (d' := d);
      [rewrite length_map, length_seq; reflexivity |].
    intros j Hj. rewrite length_map, length_seq in Hj.
    rewrite (nth_map_seq
               (fun j => nth (j / Z.to_nat k)
                           (nth (j mod Z.to_nat k) (group text k) []) d))
      by assumption.
    rewrite group_nth by (apply Nat.mod_upper_bound; lia).
    rewrite stride_nth by assumption. f_equal.
    pose proof (Nat.div_mod_eq j (Z.to_nat k)). lia.
  - intros i Hi. rewrite group_nth by assumption.
    apply stride_positions. assumption.
Qed.

Lemma group_interleave_witness :
  interleave "A"%char (group (list_ascii_of_string "ABCDEFGH") 3)
  = list_ascii_of_string "ABCDEFGH" /\
  forall i, (i < Z.to_nat 3)%nat ->
    nth i (group (list_ascii_of_string "ABCDEFGH") 3) []
    = map (fun j => nth j (list_ascii_of_string "ABCDEFGH") "A"%char)
          (positions_of_column (length (list_ascii_of_string "ABCDEFGH"))
                               (Z.to_nat 3) i).
Proof.
  apply (group_interleave (list_ascii_of_string "ABCDEFGH") 3 "A"%char). lia.
Defined.

(** ** Dictionaries *)

Section DictFacts.
Context {K V : Type} `{EqDec K}.
Implicit Types (d : dict K V) (k : K) (v : V).

Lemma get_setitem d k v k' :
  get (setitem d k v) k' = if eq_dec k' k then Some v else get d k'.
Proof.
  induction d as [| [k0 v0] rest IH]; simpl.
  - reflexivity.
  - destruct (eq_dec k k0) as [-> | Hne]; simpl.
    + destruct (eq_dec k' k0); reflexivity.
    + rewrite IH. destruct (eq_dec k' k0) as [-> | ?]; [| reflexivity].
      destruct (eq_dec k0 k); congruence.
Qed.

Lemma get_default_setitem d k v k' dflt :
  get_default (setitem d k v) k' dflt
  = if eq_dec k' k then v else get_default d k' dflt.
Proof.
  unfold get_default. rewrite get_setitem. destruct (eq_dec k' k); reflexivity.
Qed.

Lemma keys_setitem_old d k v : In k (keys d) -> keys (setitem d k v) = keys d.
Proof.
  induction d as [| [k0 v0] rest IH]; simpl; [contradiction |].
  intros Hin. destruct (eq_dec k k0) as [-> | Hne]; simpl; [reflexivity |].
  f_equal. apply IH. destruct Hin; congruence.
Qed.

Lemma setitem_new d k v : ~ In k (keys d) -> setitem d k v = d ++ [(k, v)].
Proof.
  induction d as [| [k0 v0] rest IH]; simpl; [reflexivity |].
  intros Hnin. destruct (eq_dec k k0) as [-> | Hne]; [tauto |].
  f_equal. apply IH. tauto.
Qed.

Lemma keys_setitem_new d k v :
  ~ In k (keys d) -> keys (setitem d k v) = keys d ++ [k].
Proof.
  intros Hnin. rewrite setitem_new by assumption.
  unfold keys. rewrite map_app. reflexivity.
Qed.

Lemma keys_setitem_in d k v k' :
  In k' (keys (setitem d k v)) <-> k' = k \/ In k' (keys d).
Proof.
  destruct (in_dec eq_dec k (keys d)) as [Hin | Hnin].
  - rewrite keys_setitem_old by assumption. split; [tauto |].
    intros [-> | ?]; assumption.
  - rewrite keys_setitem_new, in_app_iff by assumption. simpl.
    split; [intros [? | [<- | []]] | intros [-> | ?]]; tauto.
Qed.

Lemma get_none d k : get d k = None <-> ~ In k (keys d).
Proof.
  induction d as [| [k0 v0] rest IH]; simpl; [tauto |].
  destruct (eq_dec k k0) as [-> | Hne].
  - split; [discriminate | tauto].
  - rewrite IH. split; [intros ? [? | ?]; [congruence | tauto] | tauto].
Qed.

Lemma get_of_member d k v : NoDup (keys d) -> In (k, v) d -> get d k = Some v.
Proof.
  induction d as [| [k0 v0] rest IH]; simpl; [contradiction |].
  intros Hnd [E | Hin]; inversion Hnd as [| ? ? Hk0 Hrest]; subst.
  - inversion E; subst. destruct (eq_dec k k); congruence.
  - destruct (eq_dec k k0) as [-> | Hne]; [| apply IH; assumption].
    exfalso. apply Hk0. apply (in_map fst) in Hin. exact Hin.
Qed.

Lemma values_by_keys d dflt :
  NoDup (keys d) -> values d = map (fun k => get_default d k dflt) (keys d).
Proof.
  induction d as [| [k0 v0] rest IH]; simpl; [reflexivity |].
  intros Hnd. inversion Hnd as [| ? ? Hk0 Hrest]; subst.
  unfold get_default at 1. simpl. destruct (eq_dec k0 k0); [| congruence].
  f_equal. rewrite IH by assumption. apply map_ext_in. intros k Hk.
  unfold get_default. simpl.
  destruct (eq_dec k k0) as [-> | ?]; [contradiction | reflexivity].
Qed.
End DictFacts.

(** ** Counter *)

Lemma sorted_app_one {A : Type} (R : A -> A -> Prop) (l : list A) (x : A) :
  StronglySorted R l -> Forall (fun y => R y x) l -> StronglySorted R (l ++ [x]).
Proof.
  induction 1 as [| y r Hr IH Hy]; intros Hx; simpl.
  - repeat constructor.
  - inversion Hx; subst. constructor; [apply IH; assumption |].
    apply Forall_app. split; [assumption | constructor; [assumption | constructor]].
Qed.

Lemma sorted_weaken {A : Type} (R R' : A -> A -> Prop) (l : list A) :
  (forall a b, In a l -> In b l -> R a b -> R' a b) ->
  StronglySorted R l -> StronglySorted R' l.
Proof.
  intros Himp Hs. induction Hs as [| x r Hr IH Hx]; constructor.
  - apply IH. intros a b Ha Hb. apply Himp; right; assumption.
  - rewrite Forall_forall in Hx |- *. intros y Hy.
    apply Himp; [left; reflexivity | right; assumption | apply Hx; assumption].
Qed.

Section CounterFacts.
Context {K : Type} `{EqDec K}.
Implicit Types (l : list K) (x y : K).

Lemma Counter_snoc l x : Counter (l ++ [x]) = counter_add (Counter l) x.
Proof.
  unfold Counter. rewrite fold_left_app. reflexivity.
Qed.

Lemma votes_snoc l x y :
  votes (l ++ [x]) y = votes l y + (if eq_dec y x then 1 else 0).
Proof.
  unfold votes. rewrite count_occ_app. simpl.
  destruct (eq_dec x y), (eq_dec y x); try congruence; lia.
Qed.

Lemma first_index_snoc_old l x y :
  In y l -> first_index (l ++ [x]) y = first_index l y.
Proof.
  induction l as [| z r IH]; simpl; [contradiction |].
  intros Hin. destruct (eq_dec y z) as [-> | Hne]; [reflexivity |].
  f_equal. apply IH. destruct Hin; congruence.
Qed.

Lemma first_index_snoc_new l x :
  ~ In x l -> first_index (l ++ [x]) x = length l.
Proof.
  induction l as [| z r IH]; simpl; intros Hnin.
  - destruct (eq_dec x x); congruence.
  - destruct (eq_dec x z) as [-> | Hne]; [tauto |].
    f_equal. apply IH. tauto.
Qed.

Lemma first_index_bound l y : In y l -> (first_index l y < length l)%nat.
Proof.
  induction l as [| z r IH]; simpl; [contradiction |].
  intros Hin. destruct (eq_dec y z) as [-> | Hne]; [lia |].
  assert (In y r) by (destruct Hin; congruence).
  apply IH in H0. lia.
Qed.

Lemma Counter_get l x : get_default (Counter l) x 0 = votes l x.
Proof.
  induction l as [| z r IH] using rev_ind; [reflexivity |].
  rewrite Counter_snoc, votes_snoc. unfold counter_add.
  rewrite get_default_setitem.
  destruct (eq_dec x z) as [-> | Hne]; rewrite IH; lia.
Qed.

Lemma Counter_keys_in l x : In x (keys (Counter l)) <-> In x l.
Proof.
  induction l as [| z r IH] using rev_ind; [simpl; tauto |].
  rewrite Counter_snoc. unfold counter_add.
  rewrite keys_setitem_in, IH, in_app_iff. simpl. intuition congruence.
Qed.

Lemma Counter_keys_nodup l : NoDup (keys (Counter l)).
Proof.
  induction l as [| z r IH] using rev_ind; [constructor |].
  rewrite Counter_snoc. unfold counter_add.
  destruct (in_dec eq_dec z (keys (Counter r))) as [Hin | Hnin].
  - rewrite keys_setitem_old; assumption.
  - rewrite keys_setitem_new by assumption.
    apply NoDup_app; [assumption | repeat constructor; simpl; tauto |].
    intros a Ha [<- | []]. contradiction.
Qed.

(** The keys of a counter are in the order of first encounter. *)
Lemma Counter_keys_order l :
  StronglySorted (fun a b => (first_index l a < first_index l b)%nat)
                 (keys (Counter l)).
Proof.
  induction l as [| z r IH] using rev_ind; [constructor |].
  rewrite Counter_snoc. unfold counter_add.
  assert (Hold : StronglySorted
                   (fun a b => (first_index (r ++ [z]) a
                                < first_index (r ++ [z]) b)%nat)
                   (keys (Counter r))).
  { apply sorted_weaken with (2 := IH). intros a b Ha Hb Hab.
    apply -> Counter_keys_in in Ha. apply -> Counter_keys_in in Hb.
    rewrite !first_index_snoc_old; assumption. }
  destruct (in_dec eq_dec z (keys (Counter r))) as [Hin | Hnin].
  - rewrite keys_setitem_old; assumption.
  - rewrite keys_setitem_new by assumption.
    apply sorted_app_one; [assumption |].
    apply Forall_forall. intros a Ha.
    rewrite Counter_keys_in in Ha, Hnin.
    rewrite first_index_snoc_old, first_index_snoc_new by assumption.
    apply first_index_bound. assumption.
Qed.

Lemma Counter_member l x c : In (x, c) (Counter l) -> In x l /\ c = votes l x.
Proof.
  intros Hin. split.
  - apply Counter_keys_in. apply (in_map fst) in Hin. exact Hin.
  - rewrite <- Counter_get. unfold get_default.
    rewrite (get_of_member _ _ _ (Counter_keys_nodup l) Hin). reflexivity.
Qed.

Lemma Counter_values l : values (Counter l) = map (votes l) (keys (Counter l)).
Proof.
  rewrite (values_by_keys _ 0) by apply Counter_keys_nodup.
  apply map_ext. intros x. apply Counter_get.
Qed.

Lemma Counter_length l : length (Counter l) = length (nodup eq_dec l).
Proof.
  rewrite <- (length_map fst). apply Permutation_length.
  apply NoDup_Permutation; [apply Counter_keys_nodup | apply NoDup_nodup |].
  intros x. fold (keys (Counter l)). rewrite Counter_keys_in, nodup_In. tauto.
Qed.
End CounterFacts.

(** ** Sums *)

Lemma fold_left_add (l : list Z) (a : Z) :
  fold_left Z.add l a = a + big_sum (fun x => x) l.
Proof.
  revert a. induction l as [| x r IH]; intros a; simpl; [lia |].
  rewrite IH. lia.
Qed.

Lemma sum_map {A : Type} (f : A -> Z) (l : list A) : sum (map f l) = big_sum f l.
Proof.
  unfold sum. rewrite fold_left_add. simpl.
  induction l as [| x r IH]; simpl; [reflexivity | rewrite IH; reflexivity].
Qed.

Lemma big_sum_perm {A : Type} (f : A -> Z) (l l' : list A) :
  Permutation l l' -> big_sum f l = big_sum f l'.
Proof.
  induction 1; simpl; lia.
Qed.

Lemma big_sum_ext {A : Type} (f g : A -> Z) (l : list A) :
  (forall x, In x l -> f x = g x) -> big_sum f l = big_sum g l.
Proof.
  induction l as [| x r IH]; intros Hfg; simpl; [reflexivity |].
  rewrite Hfg by (left; reflexivity). rewrite IH; [reflexivity |].
  intros y Hy. apply Hfg. right. assumption.
Qed.

Lemma big_sum_le {A : Type} (f g : A -> Z) (l : list A) :
  (forall x, In x l -> f x <= g x) -> big_sum f l <= big_sum g l.
Proof.
  induction l as [| x r IH]; intros Hfg; simpl; [lia |].
  pose proof (Hfg x (or_introl eq_refl)).
  assert (big_sum f r <= big_sum g r)
    by (apply IH; intros y Hy; apply Hfg; right; assumption).
  lia.
Qed.

Lemma big_sum_scale {A : Type} (f : A -> Z) (a : Z) (l : list A) :
  big_sum (fun x => f x * a) l = big_sum f l * a.
Proof.
  induction l as [| x r IH]; simpl; [reflexivity | rewrite IH; lia].
Qed.

Lemma big_sum_zero {A : Type} (f : A -> Z) (l : list A) :
  (forall x, In x l -> f x = 0) -> big_sum f l = 0.
Proof.
  induction l as [| x r IH]; intros Hf; simpl; [reflexivity |].
  rewrite Hf by (left; reflexivity). rewrite IH; [reflexivity |].
  intros y Hy. apply Hf. right. assumption.
Qed.

Lemma big_sum_filter {A : Type} (f : A -> Z) (p : A -> bool) (l : list A) :
  big_sum f l
  = big_sum f (filter p l) + big_sum f (filter (fun x => negb (p x)) l).
Proof.
  induction l as [| x r IH]; simpl; [reflexivity |].
  destruct (p x); simpl; lia.
Qed.

(** A sum over [L] only sees the support [S] of the summand. *)
Lemma big_sum_support {A : Type} `{EqDec A} (f : A -> Z) (L S : list A) :
  NoDup L -> NoDup S -> incl S L ->
  (forall x, In x L -> ~ In x S -> f x = 0) ->
  big_sum f L = big_sum f S.
Proof.
  intros HL HS Hincl Hzero.
  set (p := fun x => if in_dec eq_dec x S then true else false).
  rewrite (big_sum_filter f p).
  assert (Hout : big_sum f (filter (fun x => negb (p x)) L) = 0).
  { apply big_sum_zero. intros x Hx. apply filter_In in Hx as [Hx Hp].
    apply Hzero; [assumption |]. unfold p in Hp.
    destruct (in_dec eq_dec x S); [discriminate | assumption]. }
  rewrite Hout, Z.add_0_r.
  apply big_sum_perm. apply NoDup_Permutation;
    [apply NoDup_filter; assumption | assumption |].
  intros x. rewrite filter_In. unfold p. destruct (in_dec eq_dec x S); split.
  - tauto.
  - intros Hx. split; [apply Hincl; assumption | reflexivity].
  - intros [_ ?]. discriminate.
  - tauto.
Qed.

Lemma big_sum_indicator {A : Type} `{EqDec A} (y : A) (S : list A) :
  NoDup S -> In y S ->
  big_sum (fun x => if eq_dec y x then 1 else 0) S = 1.
Proof.
  induction 1 as [| x r Hx Hr IH]; simpl; [contradiction |].
  intros [-> | Hy].
  - destruct (eq_dec y y); [| congruence].
    rewrite big_sum_zero; [reflexivity |].
    intros z Hz. destruct (eq_dec y z) as [-> | ?]; [contradiction | reflexivity].
  - destruct (eq_dec y x) as [-> | ?]; [contradiction |].
    rewrite IH by assumption. reflexivity.
Qed.

(** The votes of all candidates add up to the number of ballots. *)
Lemma big_sum_votes {A : Type} `{EqDec A} (l S : list A) :
  NoDup S -> incl l S -> big_sum (votes l) S = len l.
Proof.
  intros HS. induction l as [| y r IH]; intros Hincl.
  - apply big_sum_zero. reflexivity.
  - rewrite big_sum_ext
      with (g := fun x => votes r x + (if eq_dec y x then 1 else 0)).
    + assert (E : forall (f g : A -> Z) l0,
                 big_sum (fun x => f x + g x) l0 = big_sum f l0 + big_sum g l0).
      { intros f g l0. induction l0 as [| z t IHt]; simpl; [reflexivity |].
        rewrite IHt. lia. }
      rewrite E, IH, big_sum_indicator.
      * unfold len. simpl length. lia.
      * assumption.
      * apply Hincl. left. reflexivity.
      * intros z Hz. apply Hincl. right. assumption.
    + intros x _. unfold votes. simpl.
      destruct (eq_dec y x); lia.
Qed.

(** ** index_of_coincidence *)

Lemma votes_frequency (text : str) (c : ascii) : votes text c = frequency text c.
Proof.
  reflexivity.
Qed.

Lemma frequency_bounds (text : str) (c : ascii) : 0 <= frequency text c <= len text.
Proof.
  unfold frequency, len. pose proof (count_occ_bound ascii_dec c text). lia.
Qed.

Lemma ic_numerator_by_keys (text : str) :
  ic_numerator text
  = coincidences (keys (Counter text)) text.
Proof.
  unfold ic_numerator, coincidences.
  rewrite Counter_values, map_map, sum_map. reflexivity.
Qed.

Lemma all_chars_complete (c : ascii) : In c all_chars.
Proof.
  unfold all_chars. apply in_map_iff. exists (ord c).
  split; [apply chr_ord | apply in_range; apply ord_range].
Qed.

Lemma NoDup_map_on {A B : Type} (f : A -> B) (l : list A) :
  (forall x y, In x l -> In y l -> f x = f y -> x = y) ->
  NoDup l -> NoDup (map f l).
Proof.
  intros Hinj Hl. induction Hl as [| x r Hx Hr IH]; simpl; constructor.
  - intros Hin. apply in_map_iff in Hin as (y & Hxy & Hy).
    assert (y = x) by (apply Hinj; [right; assumption | left; reflexivity | assumption]).
    subst. contradiction.
  - apply IH. intros a b Ha Hb. apply Hinj; right; assumption.
Qed.

Lemma range_nodup (n : Z) : NoDup (range n).
Proof.
  unfold range. apply NoDup_map_on; [| apply seq_NoDup].
  intros x y _ _. lia.
Qed.

Lemma chr_injective (x y : Z) :
  0 <= x < 256 -> 0 <= y < 256 -> chr x = chr y -> x = y.
Proof.
  intros Hx Hy E. rewrite <- (ord_chr x Hx), <- (ord_chr y Hy), E. reflexivity.
Qed.

Lemma all_chars_nodup : NoDup all_chars.
Proof.
  unfold all_chars. apply NoDup_map_on; [| apply range_nodup].
  intros x y Hx Hy. apply in_range in Hx, Hy. apply chr_injective; assumption.
Qed.

Lemma letters_nodup : NoDup letters.
Proof.
  unfold letters. apply NoDup_map_on; [| apply range_nodup].
  intros x y Hx Hy E. apply in_range in Hx, Hy. unfold letter in E.
  change (ord "A") with 65 in E. apply chr_injective in E; lia.
Qed.

Lemma letters_upper (c : ascii) : In c letters <-> is_upper c = true.
Proof.
  rewrite is_upper_iff. unfold letters, letter. change (ord "A") with 65.
  rewrite in_map_iff. split.
  - intros (i & <- & Hi). apply in_range in Hi. rewrite ord_chr; lia.
  - intros Hc. exists (ord c - 65). split; [| apply in_range; lia].
    replace (65 + (ord c - 65)) with (ord c) by lia. apply chr_ord.
Qed.

Lemma frequency_absent (text : str) (c : ascii) :
  ~ In c text -> frequency text c = 0.
Proof.
  intros Hnin. unfold frequency.
  rewrite (proj1 (count_occ_not_In ascii_dec text c) Hnin). reflexivity.
Qed.

(** The numerator does not depend on the alphabet the sum ranges over, as
    long as it holds every character of the text. *)
Lemma ic_numerator_over (alphabet : list ascii) (text : str) :
  NoDup alphabet -> incl text alphabet ->
  ic_numerator text = coincidences alphabet text.
Proof.
  intros Hnd Hincl. rewrite ic_numerator_by_keys. unfold coincidences.
  symmetry. apply big_sum_support.
  - assumption.
  - apply Counter_keys_nodup.
  - intros c Hc. apply Hincl. apply Counter_keys_in. assumption.
  - intros c _ Hc. rewrite Counter_keys_in in Hc.
    rewrite frequency_absent by assumption. reflexivity.
Qed.

Lemma ic_numerator_bounds (text : str) :
  0 <= ic_numerator text <= len text * (len text - 1).
Proof.
  rewrite ic_numerator_by_keys. unfold coincidences.
  set (S := keys (Counter text)).
  assert (Htotal : big_sum (frequency text) S = len text).
  { apply (big_sum_votes text S); [apply Counter_keys_nodup |].
    intros c Hc. apply Counter_keys_in. assumption. }
  split.
  - replace 0 with (big_sum (fun _ : ascii => 0) S)
      by (apply big_sum_zero; reflexivity).
    apply big_sum_le. intros c _. pose proof (frequency_bounds text c). nia.
  - replace (len text * (len text - 1))
      with (big_sum (fun c => frequency text c * (len text - 1)) S)
      by (rewrite big_sum_scale, Htotal; reflexivity).
    apply big_sum_le. intros c _. pose proof (frequency_bounds text c). nia.
Qed.

Lemma index_of_coincidence_small (text : str) :
  len text <= 1 -> index_of_coincidence text = Ok (0 : Q).
Proof.
  intros HN. unfold index_of_coincidence.
  destruct (Z.leb_spec (len text) 1); [reflexivity | lia].
Qed.

Lemma index_of_coincidence_eq (text : str) :
  2 <= len text ->
  index_of_coincidence text
  = Ok (inject_Z (ic_numerator text) / inject_Z (len text * (len text - 1)))%Q.
Proof.
  intros HN. unfold index_of_coincidence.
  destruct (Z.leb_spec (len text) 1); [lia |].
  unfold true_div.
  destruct (Qeq_bool (inject_Z (len text * (len text - 1))) 0) eqn:E;
    [| reflexivity].
  apply Qeq_bool_iff in E. unfold Qeq in E. simpl in E. nia.
Qed.

Lemma Counter_repeat (c : ascii) (n : nat) (m : Z) :
  fold_left counter_add (repeat c n) [(c, m)] = [(c, m + Z.of_nat n)].
Proof.
  revert m. induction n as [| n IH]; intros m; simpl repeat; simpl fold_left.
  - do 2 f_equal. lia.
  - unfold counter_add at 2. unfold get_default. simpl.
    destruct (eq_dec c c) as [_ | ?]; [| congruence].
    rewrite IH. do 2 f_equal. lia.
Qed.

Lemma ic_numerator_repeat (c : ascii) (n : nat) :
  ic_numerator (repeat c (S n)) = Z.of_nat (S n) * Z.of_nat n.
Proof.
  unfold ic_numerator, Counter. simpl repeat. simpl fold_left.
  change (counter_add [] c) with [(c, 1)].
  rewrite Counter_repeat. unfold values, sum. cbn [map snd fold_left].
  rewrite Nat2Z.inj_succ. ring.
Qed.

(** C6: the index of coincidence is [Σ f (f - 1) / (N (N - 1))] over the
    frequencies [f] of the characters of the text when [N >= 2] (the sum
    ranging over the 26 letters when the text is made of them), it is 0
    when [N <= 1], no exception is raised, and it is 1 for 100 copies of
    one letter, where numerator and denominator are both 9900. *)
Theorem index_of_coincidence_spec :
  (forall text, len text <= 1 -> index_of_coincidence text = Ok (0 : Q)) /\
  (forall text, 2 <= len text ->
     exists q,
       index_of_coincidence text = Ok q /\
       (q == inject_Z (coincidences all_chars text)
             / inject_Z (len text * (len text - 1)))%Q /\
       (Forall (fun c => is_upper c = true) text ->
        (q == inject_Z (coincidences letters text)
              / inject_Z (len text * (len text - 1)))%Q)) /\
  (forall c, exists q,
     index_of_coincidence (repeat c 100) = Ok q /\ (q == 1)%Q /\
     ic_numerator (repeat c 100) = 9900 /\
     len (repeat c 100) * (len (repeat c 100) - 1) = 9900).
Proof.
  split; [| split].
  - apply index_of_coincidence_small.
  - intros text HN. eexists. split; [apply index_of_coincidence_eq; assumption |].
    split.
    + rewrite (ic_numerator_over all_chars);
        [reflexivity | apply all_chars_nodup |].
      intros c _. apply all_chars_complete.
    + intros Hup. rewrite (ic_numerator_over letters);
        [reflexivity | apply letters_nodup |].
      intros c Hc. apply letters_upper.
      rewrite Forall_forall in Hup. apply Hup. assumption.
  - intros c.
    assert (Hlen : len (repeat c 100) = 100)
      by (unfold len; rewrite repeat_length; reflexivity).
    eexists. split; [apply index_of_coincidence_eq; lia |].
    rewrite (ic_numerator_repeat c 99), Hlen. repeat split.
Qed.

Lemma index_of_coincidence_spec_witness :
  index_of_coincidence (list_ascii_of_string "A") = Ok (0 : Q) /\
  exists q,
    index_of_coincidence (list_ascii_of_string "AABB") = Ok q /\
    (q == inject_Z (coincidences all_chars (list_ascii_of_string "AABB"))
          / inject_Z (len (list_ascii_of_string "AABB")
                      * (len (list_ascii_of_string "AABB") - 1)))%Q /\
    (q == inject_Z (coincidences letters (list_ascii_of_string "AABB"))
          / inject_Z (len (list_ascii_of_string "AABB")
                      * (len (list_ascii_of_string "AABB") - 1)))%Q.
Proof.
  destruct index_of_coincidence_spec as (Hsmall & Hbig & _).
  split; [apply Hsmall; vm_compute; discriminate |].
  destruct (Hbig (list_ascii_of_string "AABB")) as (q & E & Hall & Hletters);
    [vm_compute; discriminate |].
  exists q. split; [exact E |]. split; [exact Hall |].
  apply Hletters. repeat constructor.
Defined.

(** C9: the index of coincidence of every text lies between 0 and 1; its
    numerator is never negative and never exceeds [N (N - 1)]. *)
Theorem index_of_coincidence_range (text : str) :
  0 <= ic_numerator text <= len text * (len text - 1) /\
  exists q, index_of_coincidence text = Ok q /\ (0 <= q <= 1)%Q.
Proof.
  pose proof (ic_numerator_bounds text) as [Hlo Hhi].
  split; [split; assumption |].
  destruct (Z_le_gt_dec (len text) 1) as [Hsmall | Hbig].
  - exists (0 : Q). split.
    + apply index_of_coincidence_small. assumption.
    + split; discriminate.
  - eexists. split; [apply index_of_coincidence_eq; lia |].
    assert (Hden : (0 < inject_Z (len text * (len text - 1)))%Q).
    { rewrite <- (Zlt_Qlt 0). nia. }
    split.
    + apply Qle_shift_div_l; [assumption |].
      rewrite Qmult_0_l. rewrite <- (Zle_Qle 0). assumption.
    + apply Qle_shift_div_r; [assumption |].
      rewrite Qmult_1_l. rewrite <- Zle_Qle. assumption.
Qed.

(** ** chi_squared *)

Lemma sumQ_loop {A : Type} (f : A -> Q) (l : list A) (a : Q) :
  (fold_left (fun acc x => acc + f x) l a == a + big_sumQ f l)%Q.
Proof.
  revert a. induction l as [| x r IH]; intros a; simpl.
  - rewrite Qplus_0_r. reflexivity.
  - rewrite IH. rewrite Qplus_assoc. reflexivity.
Qed.

Lemma or_one_nonzero (E : Q) : Qeq_bool (or_one E) 0 = false.
Proof.
  unfold or_one. destruct (Qeq_bool E 0) eqn:HE; [reflexivity | assumption].
Qed.

Lemma chi_squared_loop (obs_counts : dict ascii Z) (total_len shift : Z) :
  1 <= total_len ->
  forall (table : dict ascii Q) (acc : Q),
    for_each (fun chi2 '(L, E_perc) =>
                let shifted_letter :=
                  chr ((ord L - ord "A" + shift) mod 26 + ord "A") in
                let observed := get_default obs_counts shifted_letter 0 in
                r <- true_div (inject_Z observed) (inject_Z total_len) ;;
                let O := (r * 100)%Q in
                t <- true_div ((O - E_perc) ^ 2)%Q (or_one E_perc) ;;
                Ok (chi2 + t)%Q)
             table acc
    = Ok (fold_left (fun chi2 entry =>
                       (chi2 + chi_term obs_counts total_len shift entry)%Q)
                    table acc).
Proof.
  intros Htotal.
  assert (Hdiv : Qeq_bool (inject_Z total_len) 0 = false).
  { destruct (Qeq_bool (inject_Z total_len) 0) eqn:E; [| reflexivity].
    apply Qeq_bool_iff in E. unfold Qeq in E. simpl in E. lia. }
  induction table as [| [L E_perc] rest IH]; intros acc; [reflexivity |].
  cbn [for_each fold_left]. unfold true_div at 1 2.
  rewrite Hdiv. cbn [bind]. rewrite or_one_nonzero. cbn [bind].
  rewrite IH. reflexivity.
Qed.

Lemma ord_letter (i : Z) : 0 <= i < 26 -> ord (letter i) = ord "A" + i.
Proof.
  intros Hi. unfold letter. change (ord "A") with 65. apply ord_chr. lia.
Qed.

Lemma freq_pt_by_index :
  freq_pt = map (fun i => (letter i, expected i)) (range 26).
Proof.
  reflexivity.
Qed.

Lemma chi_term_by_index (obs_counts : dict ascii Z) (total_len shift i : Z) :
  0 <= i < 26 ->
  chi_term obs_counts total_len shift (letter i, expected i)
  = chi_squared_term obs_counts total_len shift i.
Proof.
  intros Hi. unfold chi_term, chi_squared_term. cbn [fst snd].
  rewrite ord_letter by assumption. unfold letter.
  replace (ord "A" + i - ord "A" + shift) with (i + shift) by lia.
  rewrite (Z.add_comm _ (ord "A")). reflexivity.
Qed.

Lemma big_sumQ_map {A B : Type} (f : B -> Q) (g : A -> B) (l : list A) :
  big_sumQ f (map g l) = big_sumQ (fun x => f (g x)) l.
Proof.
  induction l as [| x r IH]; simpl; [reflexivity | rewrite IH; reflexivity].
Qed.

Lemma big_sumQ_ext {A : Type} (f g : A -> Q) (l : list A) :
  (forall x, In x l -> f x = g x) -> big_sumQ f l = big_sumQ g l.
Proof.
  induction l as [| x r IH]; intros Hfg; simpl; [reflexivity |].
  rewrite Hfg by (left; reflexivity). rewrite IH; [reflexivity |].
  intros y Hy. apply Hfg. right. assumption.
Qed.

(** C7: for a column of [total_len >= 1] characters the statistic is the
    sum, over the 26 letters [L] of the table with expected percentage
    [E], of [(O - E)^2 / E'], where [O] is the observed percentage of the
    letter [(L + s) mod 26] and [E'] is [E], or 1 when [E] is 0. *)
Theorem chi_squared_spec (obs_counts : dict ascii Z) (total_len shift : Z) :
  1 <= total_len ->
  exists chi2,
    chi_squared obs_counts total_len shift = Ok chi2 /\
    (chi2 == chi_squared_sum obs_counts total_len shift)%Q.
Proof.
  intros Htotal. eexists. split.
  - unfold chi_squared. apply chi_squared_loop. assumption.
  - rewrite sumQ_loop, Qplus_0_l. unfold chi_squared_sum.
    rewrite freq_pt_by_index, big_sumQ_map.
    rewrite (big_sumQ_ext _ (chi_squared_term obs_counts total_len shift));
      [reflexivity |].
    intros i Hi. apply chi_term_by_index. apply in_range. assumption.
Qed.

Lemma chi_squared_spec_witness :
  exists chi2,
    chi_squared (Counter (list_ascii_of_string "AAB")) 3 1 = Ok chi2 /\
    (chi2 == chi_squared_sum (Counter (list_ascii_of_string "AAB")) 3 1)%Q.
Proof.
  apply (chi_squared_spec (Counter (list_ascii_of_string "AAB")) 3 1). lia.
Defined.

(** ** most_common *)

Lemma sorted_map_inv {A B : Type} (f : A -> B) (R : B -> B -> Prop) (l : list A) :
  StronglySorted R (map f l) -> StronglySorted (fun a b => R (f a) (f b)) l.
Proof.
  induction l as [| x r IH]; intros Hs; [constructor |].
  simpl in Hs. inversion Hs as [| ? ? Hr Hx]; subst.
  constructor; [apply IH; assumption |].
  rewrite Forall_map in Hx. assumption.
Qed.

Lemma sorted_app_inv {A : Type} (R : A -> A -> Prop) (l1 l2 : list A) :
  StronglySorted R (l1 ++ l2) ->
  StronglySorted R l1 /\ forall x y, In x l1 -> In y l2 -> R x y.
Proof.
  induction l1 as [| a r IH]; simpl; intros Hs.
  - split; [constructor | contradiction].
  - inversion Hs as [| ? ? Hr Ha]; subst.
    destruct (IH Hr) as [Hs1 Hcross].
    rewrite Forall_app in Ha. destruct Ha as [Ha1 Ha2]. split.
    + constructor; assumption.
    + intros x y [<- | Hx] Hy; [| apply Hcross; assumption].
      rewrite Forall_forall in Ha2. apply Ha2. assumption.
Qed.

Section MostCommon.
Context {K : Type} `{EqDec K}.

(** The items of a counter, sorted as [most_common] does, are ranked. *)
Lemma by_count_desc_ranked (l : list K) :
  StronglySorted (fun p q => outranks l (fst p) (fst q))
                 (by_count_desc (Counter l)).
Proof.
  set (B := fun p q : K * Z => (first_index l (fst p) < first_index l (fst q))%nat).
  set (R := fun p q : K * Z => snd q < snd p \/ (snd p = snd q /\ B p q)).
  assert (Hs : StronglySorted R (by_count_desc (Counter l))).
  { unfold by_count_desc. apply stable_sort_sorted with (B := B).
    - intros y x E. apply Z.ltb_lt in E. left. assumption.
    - intros y x E Hb. apply Z.ltb_ge in E. unfold R.
      destruct (Z.eq_dec (snd x) (snd y)); [right; tauto | left; lia].
    - intros x y z E [Hlt | [Heq Hb]] Hxz; apply Z.ltb_ge in E; unfold R.
      + left. lia.
      + destruct (Z.eq_dec (snd x) (snd z)); [right; tauto | left; lia].
    - apply sorted_map_inv with (f := fst)
        (R := fun a b => (first_index l a < first_index l b)%nat).
      apply Counter_keys_order. }
  apply sorted_weaken with (2 := Hs). intros [x cx] [y cy] Hx Hy.
  apply (Permutation_in _ (stable_sort_perm _ _)) in Hx, Hy.
  apply Counter_member in Hx as [_ ->], Hy as [_ ->].
  unfold R, B, outranks. simpl. tauto.
Qed.

Lemma most_common_is_top (k : Z) (l : list K) :
  is_top k l (most_common k (Counter l)).
Proof.
  unfold most_common. set (s := by_count_desc (Counter l)).
  assert (Hperm : Permutation s (Counter l)) by apply stable_sort_perm.
  pose proof (by_count_desc_ranked l) as Hs. fold s in Hs.
  rewrite <- (firstn_skipn (Z.to_nat k) s) in Hs.
  apply sorted_app_inv in Hs as [Hs1 Hcross].
  split; [| split; [| split]].
  - rewrite length_firstn, (Permutation_length Hperm), Counter_length.
    reflexivity.
  - intros x c Hin. apply Counter_member.
    apply (Permutation_in _ Hperm).
    rewrite <- (firstn_skipn (Z.to_nat k) s). apply in_or_app. left.
    assumption.
  - assumption.
  - intros x y Hx Hy Hny.
    apply in_map_iff in Hx as ([x' cx] & <- & Hx).
    apply (Counter_keys_in l y) in Hy.
    apply in_map_iff in Hy as ([y' cy] & <- & Hy).
    apply (Permutation_in _ (Permutation_sym Hperm)) in Hy.
    rewrite <- (firstn_skipn (Z.to_nat k) s) in Hy.
    apply in_app_or in Hy as [Hy | Hy].
    + exfalso. apply Hny. apply (in_map fst) in Hy. exact Hy.
    + apply (Hcross _ _ Hx Hy).
Qed.
End MostCommon.

(** ** Loops over dictionaries *)

Lemma fold_left_over_map {A B C : Type} (f : A -> C -> A) (h : B -> C)
  (l : list B) (a : A) :
  fold_left f (map h l) a = fold_left (fun a x => f a (h x)) l a.
Proof.
  revert a. induction l as [| x r IH]; intros a; simpl; [reflexivity | apply IH].
Qed.

Lemma fold_left_over_flat_map {A B C : Type} (f : A -> C -> A) (g : B -> list C)
  (l : list B) (a : A) :
  fold_left f (flat_map g l) a = fold_left (fun a x => fold_left f (g x) a) l a.
Proof.
  revert a. induction l as [| x r IH]; intros a; simpl; [reflexivity |].
  rewrite fold_left_app. apply IH.
Qed.

Lemma fold_left_same {A B : Type} (f g : A -> B -> A) (l : list B) (a : A) :
  (forall a x, f a x = g a x) -> fold_left f l a = fold_left g l a.
Proof.
  intros Hfg. revert a. induction l as [| x r IH]; intros a; simpl;
    [reflexivity |].
  rewrite Hfg. apply IH.
Qed.

Section DictAppend.
Context {K V : Type} `{EqDec K}.
Implicit Types (d : dict K V) (k : K) (v : V).

Lemma get_app_new d d' k : ~ In k (keys d) -> get (d ++ d') k = get d' k.
Proof.
  induction d as [| [k0 v0] rest IH]; simpl; [reflexivity |].
  intros Hnin. destruct (eq_dec k k0) as [-> | ?]; [tauto |].
  apply IH. tauto.
Qed.

Lemma setitem_app_new d d' k v :
  ~ In k (keys d) -> setitem (d ++ d') k v = d ++ setitem d' k v.
Proof.
  induction d as [| [k0 v0] rest IH]; simpl; [reflexivity |].
  intros Hnin. destruct (eq_dec k k0) as [-> | ?]; [tauto |].
  f_equal. apply IH. tauto.
Qed.

Lemma in_setitem d k v k' v' :
  In (k', v') (setitem d k v) -> (k' = k /\ v' = v) \/ In (k', v') d.
Proof.
  induction d as [| [k0 v0] rest IH]; simpl.
  - intros [E | []]. inversion E. tauto.
  - destruct (eq_dec k k0) as [-> | ?]; simpl.
    + intros [E | Hin]; [inversion E; tauto | tauto].
    + intros [E | Hin]; [tauto |]. apply IH in Hin. tauto.
Qed.

Lemma get_some_in d k v : get d k = Some v -> In (k, v) d.
Proof.
  induction d as [| [k0 v0] rest IH]; simpl; [discriminate |].
  destruct (eq_dec k k0) as [-> | ?].
  - intros E. inversion E. tauto.
  - intros E. right. apply IH. assumption.
Qed.

Lemma keys_setitem_nodup d k v : NoDup (keys d) -> NoDup (keys (setitem d k v)).
Proof.
  intros Hd. destruct (in_dec eq_dec k (keys d)) as [Hin | Hnin].
  - rewrite keys_setitem_old; assumption.
  - rewrite keys_setitem_new by assumption.
    apply NoDup_app; [assumption | repeat constructor; simpl; tauto |].
    intros a Ha [<- | []]. contradiction.
Qed.
End DictAppend.

Section DictAppendMany.
Context {K V : Type} `{EqDec K}.

Lemma dict_append_more (d : dict K (list V)) (k : K) (cur vs : list V) :
  ~ In k (keys d) ->
  fold_left (fun d v => dict_append d k v) vs (d ++ [(k, cur)])
  = d ++ [(k, cur ++ vs)].
Proof.
  intros Hnin. revert cur. induction vs as [| v rest IH]; intros cur; simpl.
  - rewrite app_nil_r. reflexivity.
  - unfold dict_append at 2. unfold get_default.
    rewrite get_app_new by assumption. simpl.
    destruct (eq_dec k k) as [_ | ?]; [| congruence].
    rewrite setitem_app_new by assumption. simpl.
    destruct (eq_dec k k) as [_ | ?]; [| congruence].
    rewrite IH, <- app_assoc. reflexivity.
Qed.

Lemma dict_append_many (d : dict K (list V)) (k : K) (vs : list V) :
  ~ In k (keys d) ->
  fold_left (fun d v => dict_append d k v) vs d
  = d ++ match vs with [] => [] | _ => [(k, vs)] end.
Proof.
  intros Hnin. destruct vs as [| v rest]; simpl.
  - rewrite app_nil_r. reflexivity.
  - unfold dict_append at 2. unfold get_default.
    rewrite (proj2 (get_none d k) Hnin).
    rewrite setitem_new by assumption. simpl.
    apply dict_append_more. assumption.
Qed.
End DictAppendMany.

(** ** compute_pairwise_distances *)

Lemma map_nth_all {A : Type} (d : A) (l : list A) :
  map (fun j => nth j l d) (seq 0 (length l)) = l.
Proof.
  induction l as [| x r IH]; simpl; [reflexivity |].
  f_equal. rewrite <- seq_shift, map_map. exact IH.
Qed.

Lemma distances_loop_nat (pos_list : list Z) :
  distances_loop pos_list
  = flat_map (fun i =>
                map (fun j => nth (S i + j) pos_list 0 - nth i pos_list 0)
                    (seq 0 (length pos_list - S i)))
             (seq 0 (length pos_list - 1)).
Proof.
  unfold distances_loop, range, range2, len.
  replace (Z.to_nat (Z.of_nat (length pos_list) - 1))
    with (length pos_list - 1)%nat by lia.
  rewrite flat_map_concat_map, map_map, <- flat_map_concat_map.
  apply flat_map_ext. intros i.
  replace (Z.to_nat (Z.of_nat (length pos_list) - (Z.of_nat i + 1)))
    with (length pos_list - S i)%nat by lia.
  rewrite map_map. apply map_ext. intros j.
  rewrite Nat2Z.id.
  replace (Z.to_nat (Z.of_nat i + 1 + Z.of_nat j)) with (S i + j)%nat by lia.
  reflexivity.
Qed.

Lemma distances_loop_pairwise (pos_list : list Z) :
  distances_loop pos_list = pairwise pos_list.
Proof.
  rewrite distances_loop_nat.
  induction pos_list as [| p rest IH]; [reflexivity |].
  destruct rest as [| q rest']; [reflexivity |].
  set (l := q :: rest') in *.
  replace (length (p :: l) - 1)%nat with (S (length l - 1)) by (simpl; lia).
  cbn [seq flat_map pairwise]. f_equal.
  - replace (length (p :: l) - 1)%nat with (length l) by (simpl; lia).
    rewrite <- (map_nth_all 0 l) at 2. rewrite map_map. reflexivity.
  - rewrite <- IH.
    rewrite <- seq_shift, flat_map_concat_map, map_map, <- flat_map_concat_map.
    apply flat_map_ext. intros i. reflexivity.
Qed.

Lemma distances_inner_loops (ng : str) (pos_list : list Z)
  (distances : dict str (list Z)) :
  fold_left (fun distances i =>
      fold_left (fun distances j =>
        dict_append distances ng
          (nth (Z.to_nat j) pos_list 0 - nth (Z.to_nat i) pos_list 0))
        (range2 (i + 1) (len pos_list)) distances)
      (range (len pos_list - 1)) distances
  = fold_left (fun distances v => dict_append distances ng v)
              (pairwise pos_list) distances.
Proof.
  rewrite <- distances_loop_pairwise. unfold distances_loop.
  rewrite fold_left_over_flat_map.
  apply fold_left_same. intros d i. rewrite fold_left_over_map. reflexivity.
Qed.

Lemma compute_pairwise_distances_loop (positions distances : dict str (list Z)) :
  NoDup (keys positions) ->
  (forall k, In k (keys positions) -> ~ In k (keys distances)) ->
  fold_left (fun distances '(ng, pos_list) =>
    fold_left (fun distances i =>
      fold_left (fun distances j =>
        dict_append distances ng
          (nth (Z.to_nat j) pos_list 0 - nth (Z.to_nat i) pos_list 0))
        (range2 (i + 1) (len pos_list)) distances)
      (range (len pos_list - 1)) distances)
    positions distances
  = distances ++ flat_map distances_entry positions.
Proof.
  revert distances. induction positions as [| [ng pos_list] rest IH];
    intros distances Hnd Hfresh; simpl.
  - rewrite app_nil_r. reflexivity.
  - inversion Hnd as [| ? ? Hng Hrest]; subst.
    rewrite distances_inner_loops.
    rewrite dict_append_many by (apply Hfresh; left; reflexivity).
    rewrite IH.
    + rewrite <- app_assoc. unfold distances_entry at 2. cbn [fst snd].
      destruct (pairwise pos_list); reflexivity.
    + assumption.
    + intros k Hk Hin. unfold keys in Hin. rewrite map_app, in_app_iff in Hin.
      destruct Hin as [Hin | Hin].
      * apply (Hfresh k); [right; assumption | assumption].
      * assert (k = ng).
        { destruct (pairwise pos_list); simpl in Hin; [tauto |].
          destruct Hin as [<- | []]. reflexivity. }
        subst. contradiction.
Qed.

Lemma compute_pairwise_distances_eq (positions : dict str (list Z)) :
  NoDup (keys positions) ->
  compute_pairwise_distances positions = flat_map distances_entry positions.
Proof.
  intros Hnd. unfold compute_pairwise_distances.
  rewrite compute_pairwise_distances_loop; [reflexivity | assumption |].
  intros k _ [].
Qed.

Lemma pairwise_positive (pos_list : list Z) :
  StronglySorted Z.lt pos_list -> Forall (fun d => 0 < d) (pairwise pos_list).
Proof.
  induction 1 as [| p rest Hrest IH Hp]; simpl; [constructor |].
  apply Forall_app. split; [| assumption].
  rewrite Forall_map. rewrite Forall_forall in Hp |- *.
  intros q Hq. specialize (Hp q Hq). lia.
Qed.

(** ** extract_ngram_positions *)

Lemma range_sorted (n : Z) : StronglySorted Z.lt (range n).
Proof.
  unfold range. generalize (Z.to_nat n) as m. generalize 0%nat as a.
  intros a m. revert a. induction m as [| m IH]; intros a; simpl; constructor.
  - apply IH.
  - rewrite Forall_map. apply Forall_forall. intros i Hi.
    apply in_seq in Hi. lia.
Qed.

Lemma positions_loop (key : Z -> str) (indices : list Z)
  (positions : dict str (list Z)) :
  StronglySorted Z.lt indices ->
  NoDup (keys positions) ->
  (forall k v, In (k, v) positions ->
     StronglySorted Z.lt v /\ forall x i, In x v -> In i indices -> x < i) ->
  NoDup (keys (fold_left (fun positions i => dict_append positions (key i) i)
                         indices positions)) /\
  forall k v,
    In (k, v) (fold_left (fun positions i => dict_append positions (key i) i)
                         indices positions) ->
    StronglySorted Z.lt v.
Proof.
  intros Hs. revert positions.
  induction Hs as [| i rest Hrest IH Hi]; intros positions Hnd Hinv; simpl.
  - split; [assumption |]. intros k v Hin. apply (Hinv k v Hin).
  - rewrite Forall_forall in Hi. apply IH.
    + apply keys_setitem_nodup. assumption.
    + intros k v Hin. unfold dict_append in Hin.
      apply in_setitem in Hin as [[-> ->] | Hin].
      * unfold get_default.
        destruct (get positions (key i)) as [cur |] eqn:Hget.
        -- apply get_some_in in Hget. destruct (Hinv _ _ Hget) as [Hcur Hlt].
           split.
           ++ apply sorted_app_one; [assumption |].
              apply Forall_forall. intros x Hx. apply Hlt; [assumption |].
              left. reflexivity.
           ++ intros x j Hx Hj. apply in_app_or in Hx as [Hx | [<- | []]].
              ** apply Hlt; [assumption | right; assumption].
              ** apply Hi. assumption.
        -- split; [repeat constructor |].
           intros x j [<- | []] Hj. apply Hi. assumption.
      * destruct (Hinv _ _ Hin) as [Hv Hlt]. split; [assumption |].
        intros x j Hx Hj. apply Hlt; [assumption | right; assumption].
Qed.

Lemma NoDup_keys_filter {K V : Type} (p : K * V -> bool) (d : dict K V) :
  NoDup (keys d) -> NoDup (keys (filter p d)).
Proof.
  induction d as [| [k v] rest IH]; simpl; intros Hnd; [constructor |].
  inversion Hnd as [| ? ? Hk Hrest]; subst.
  destruct (p (k, v)); simpl; [| apply IH; assumption].
  constructor; [| apply IH; assumption].
  intros Hin. apply Hk. apply in_map_iff in Hin as ([k' v'] & E & Hin).
  apply filter_In in Hin as [Hin _]. simpl in E. subst.
  apply (in_map fst) in Hin. exact Hin.
Qed.

(** The positions of every retained n-gram are distinct and ascending. *)
Lemma extract_ngram_positions_sorted (text : str) (n threshold : Z) :
  NoDup (keys (extract_ngram_positions text n threshold)) /\
  forall ng pos_list,
    In (ng, pos_list) (extract_ngram_positions text n threshold) ->
    StronglySorted Z.lt pos_list.
Proof.
  unfold extract_ngram_positions.
  destruct (positions_loop (fun i => slice text i (i + n))
                           (range (len text - n + 1)) [])
    as [Hnd Hsorted].
  - apply range_sorted.
  - constructor.
  - intros k v [].
  - split.
    + apply NoDup_keys_filter. assumption.
    + intros ng pos_list Hin. apply filter_In in Hin as [Hin _].
      apply (Hsorted _ _ Hin).
Qed.

(** ** kasiski_test *)

Lemma factor_list_loop (dist : list Z) :
  Forall (fun d => 0 < d) dist ->
  exists divisors,
    Forall2 (fun d ds => get_divisors d = Ok ds) dist divisors /\
    forall factor_list,
      for_each (fun factor_list d =>
                  divs <- get_divisors d ;; Ok (factor_list ++ divs))
               dist factor_list
      = Ok (factor_list ++ concat divisors).
Proof.
  induction 1 as [| d rest Hd Hrest IH].
  - exists []. split; [constructor |]. intros fl. simpl.
    rewrite app_nil_r. reflexivity.
  - destruct IH as (divisors & Hall & Hloop).
    eexists (_ :: divisors). split.
    + constructor; [apply get_divisors_eq; lia | eassumption].
    + intros fl. simpl. rewrite get_divisors_eq by lia. simpl.
      rewrite Hloop, <- app_assoc. reflexivity.
Qed.

Lemma append_keys {K V : Type} (items : list (K * V)) (list_a : list K) :
  fold_left (fun list_a '(key, _) => list_a ++ [key]) items list_a
  = list_a ++ map fst items.
Proof.
  revert list_a. induction items as [| [k v] rest IH]; intros list_a; simpl.
  - rewrite app_nil_r. reflexivity.
  - rewrite IH, <- app_assoc. reflexivity.
Qed.

Lemma kasiski_loop (top_k : Z) (positions : dict str (list Z)) :
  (forall ng pos_list, In (ng, pos_list) positions ->
                       StronglySorted Z.lt pos_list) ->
  exists kept,
    Forall2 (fun entry kept_ng => ngram_votes top_k (snd entry) kept_ng)
            positions kept /\
    forall list_a,
      for_each (fun list_a '(ng, dist) =>
                  factor_list <- factor_list_of dist ;;
                  let top_divisors := most_common top_k (Counter factor_list) in
                  Ok (fold_left (fun list_a '(key, _) => list_a ++ [key])
                                top_divisors list_a))
               (flat_map distances_entry positions) list_a
      = Ok (list_a ++ concat (map (map fst) kept)).
Proof.
  induction positions as [| [ng pos_list] rest IH]; intros Hsorted.
  - exists []. split; [constructor |]. intros list_a. simpl.
    rewrite app_nil_r. reflexivity.
  - destruct IH as (kept & Hkept & Hloop).
    { intros ng' pl Hin. apply (Hsorted ng' pl). right. assumption. }
    destruct (factor_list_loop (pairwise pos_list)) as (divisors & Hdivs & Hfl).
    { apply pairwise_positive. apply (Hsorted ng). left. reflexivity. }
    exists (most_common top_k (Counter (concat divisors)) :: kept). split.
    + constructor; [| assumption].
      exists divisors. split; [assumption | apply most_common_is_top].
    + intros list_a. cbn [flat_map]. unfold distances_entry at 1. cbn [fst snd].
      destruct (pairwise pos_list) as [| d dist] eqn:Hpw.
      * inversion Hdivs; subst. cbn [app]. rewrite Hloop.
        unfold most_common. cbn [concat Counter fold_left].
        unfold by_count_desc. cbn [stable_sort fold_right].
        rewrite firstn_nil. reflexivity.
      * cbn [app for_each]. unfold factor_list_of at 1.
        rewrite Hfl. cbn [bind app]. rewrite append_keys, Hloop.
        cbn [map concat]. rewrite <- app_assoc. reflexivity.
Qed.

Lemma kasiski_test_structure (text : str) (n top_k threshold : Z) :
  exists kept,
    Forall2 (fun entry kept_ng => ngram_votes top_k (snd entry) kept_ng)
            (extract_ngram_positions text n threshold) kept /\
    kasiski_test text n top_k threshold
    = Ok (most_common top_k (Counter (concat (map (map fst) kept)))).
Proof.
  destruct (extract_ngram_positions_sorted text n threshold) as [Hnd Hsorted].
  destruct (kasiski_loop top_k _ Hsorted) as (kept & Hkept & Hloop).
  exists kept. split; [assumption |].
  unfold kasiski_test. rewrite compute_pairwise_distances_eq by assumption.
  rewrite Hloop. reflexivity.
Qed.

(** C5: every retained n-gram contributes one vote for each of the
    [top_k] most frequent divisors of its own distances; these capped
    votes are tallied together and the result is the top [top_k] of the
    tally, each length with its number of votes, most votes first and
    ties in the order of first encounter. *)
Theorem kasiski_test_caps_votes_per_ngram (text : str) (n top_k threshold : Z) :
  exists (kept : list (list (Z * Z))) (result0 : list (Z * Z)),
    Forall2 (fun entry kept_ng => ngram_votes top_k (snd entry) kept_ng)
            (extract_ngram_positions text n threshold) kept /\
    is_top top_k (concat (map (map fst) kept)) result0 /\
    kasiski_test text n top_k threshold = Ok result0.
Proof.
  destruct (kasiski_test_structure text n top_k threshold) as (kept & Hkept & E).
  exists kept. eexists. split; [assumption |]. split; [| exact E].
  apply most_common_is_top.
Qed.

Example kasiski_test_example :
  kasiski_test (list_ascii_of_string "ABCABCABCXYZABC") 3 3 2
  = Ok [(3, 3); (2, 1); (6, 1)].
Proof.
  reflexivity.
Qed.

(** ** The script *)

Lemma kasiski_test_returns (text : str) (n top_k threshold : Z) :
  exists result0, kasiski_test text n top_k threshold = Ok result0.
Proof.
  destruct (kasiski_test_structure text n top_k threshold) as (kept & _ & E).
  eexists. exact E.
Qed.

Lemma map_result_returns {A B : Type} (f : A -> result B) (l : list A) :
  (forall x, exists y, f x = Ok y) -> exists ys, map_result f l = Ok ys.
Proof.
  intros Hf. induction l as [| x rest [ys IH]]; simpl.
  - exists []. reflexivity.
  - destruct (Hf x) as [y Hy]. exists (y :: ys). rewrite Hy, IH. reflexivity.
Qed.

(** The Kasiski stage never raises. *)
Lemma kasiski_stage_returns (text : str) :
  exists sums, kasiski_stage text = Ok sums.
Proof.
  unfold kasiski_stage.
  destruct (map_result_returns
              (fun '(n, threshold) =>
                 result0 <- kasiski_test text n top threshold ;;
                 Ok (list_to_dict result0))
              tests) as [list_dicts E].
  - intros [n threshold].
    destruct (kasiski_test_returns text n top threshold) as [r Hr].
    rewrite Hr. eexists. reflexivity.
  - rewrite E. eexists. reflexivity.
Qed.

(** C1, as the code has it: when no candidate key length is left, the
    selection raises nothing; it leaves [greatest] at its initial [(0, 0)],
    key recovery for the length 0 yields the empty key, and the decryptor
    is called with that key on the prefix of the text. *)
Theorem no_candidate_selects_zero (text : str) (sums : dict Z Z) :
  kasiski_stage text = Ok sums ->
  possible_keys_length sums = [] ->
  select_key_length text (possible_keys_length sums) = Ok (0, 0 : Q) /\
  recover_key text 0 = Ok [] /\
  main text
  = (plain <- decrypt_vigenere (slice text 0 500) [] ;;
     Ok (mk_run [] (0, 0 : Q) [] plain)).
Proof.
  intros E Hnone. rewrite Hnone.
  split; [reflexivity |]. split; [reflexivity |].
  unfold main. rewrite E. cbn [bind]. rewrite Hnone. reflexivity.
Qed.

Lemma no_candidate_selects_zero_witness :
  select_key_length (list_ascii_of_string "AB") (possible_keys_length [])
  = Ok (0, 0 : Q) /\
  recover_key (list_ascii_of_string "AB") 0 = Ok [] /\
  main (list_ascii_of_string "AB")
  = (plain <- decrypt_vigenere (slice (list_ascii_of_string "AB") 0 500) [] ;;
     Ok (mk_run [] (0, 0 : Q) [] plain)).
Proof.
  apply (no_candidate_selects_zero (list_ascii_of_string "AB") []);
    reflexivity.
Defined.

(** C1 as worded fails on a two-letter text: no candidate is left, the
    selection returns the length 0 without raising, key recovery returns
    the empty key, and the script only stops in the decryptor, on a
    division by zero. *)
Lemma no_candidate_counterexample :
  kasiski_stage (list_ascii_of_string "AB") = Ok [] /\
  possible_keys_length (@nil (Z * Z)) = [] /\
  select_key_length (list_ascii_of_string "AB") [] = Ok (0, 0 : Q) /\
  ~ (exists e, select_key_length (list_ascii_of_string "AB") [] = Raise e) /\
  recover_key (list_ascii_of_string "AB") 0 = Ok [] /\
  main (list_ascii_of_string "AB") = Raise ZeroDivisionError.
Proof.
  split; [reflexivity |]. split; [reflexivity |]. split; [reflexivity |].
  split; [intros [e He]; discriminate He |].
  split; reflexivity.
Qed.
